(** * Clause segmentation and risk matching of the contract redlining assistant

    A shallow embedding of [src/app.py]: [segment_into_clauses],
    [analyze_clause_risk], [generate_redline] and the [RISK_PATTERNS] table,
    together with the parts of the Python runtime they call ([str.strip],
    [str.lower], [str.title], [str.replace], the [in] operator and
    [re.split] for the clause-break pattern). *)

From Stdlib Require Import Ascii String List Sorted Bool Arith NArith Lia.
From Stdlib Require DecimalString DecimalNat.
Import ListNotations.

Local Open Scope list_scope.

(** ** Python strings

    A Python [str] is a sequence of code points.  The model keeps the code
    points below 256 (ASCII and Latin-1), one [ascii] each, and follows the
    Unicode database on that range for white space, digits and lower-casing. *)

Module PyStr.

Definition str := list ascii.

(** A literal of the source. *)
Definition py (s : string) : str := list_ascii_of_string s.

Definition code (c : ascii) : N := N_of_ascii c.

Definition between (lo hi : N) (c : ascii) : bool :=
  ((lo <=? code c) && (code c <=? hi))%N.

(** The double quote, which occurs inside the redline templates. *)
Definition dquote : ascii := ascii_of_N 34.
Definition newline : ascii := ascii_of_N 10.

(** [str.isspace] on one code point, also the class [\s] of [re]:
    U+0009..U+000D, U+001C..U+0020, U+0085 and U+00A0. *)
Definition isspace (c : ascii) : bool :=
  between 9 13 c || between 28 32 c || (code c =? 133)%N || (code c =? 160)%N.

(** The class [\d] of [re]: the decimal digits, [0] to [9] on this range. *)
Definition isdigit (c : ascii) : bool := between 48 57 c.

(** Upper-case letters that have a lower-case partner 32 code points up:
    [A]..[Z], and U+00C0..U+00DE without the multiplication sign U+00D7. *)
Definition isupper (c : ascii) : bool :=
  between 65 90 c || (between 192 222 c && negb (code c =? 215)%N).

Definition lower_char (c : ascii) : ascii :=
  if isupper c then ascii_of_N (code c + 32) else c.

(** [s.lower()] *)
Definition lower (s : str) : str := map lower_char s.

(** ASCII letters, as [str.title] sees them in the dictionary keys. *)
Definition isalpha_ascii (c : ascii) : bool := between 65 90 c || between 97 122 c.

Definition upper_char_ascii (c : ascii) : ascii :=
  if between 97 122 c then ascii_of_N (code c - 32) else c.

(** [s.title()]: the first cased character of every run of cased characters
    is upper-cased, the others are lower-cased.  Exact on ASCII text, which
    is what the source applies it to (the keys of [RISK_PATTERNS]). *)
Fixpoint title_from (previous_is_cased : bool) (s : str) : str :=
  match s with
  | [] => []
  | c :: s' =>
      (if previous_is_cased then lower_char c else upper_char_ascii c)
        :: title_from (isalpha_ascii c) s'
  end.

Definition title (s : str) : str := title_from false s.

(** [s.replace(old, new)] for one-character [old] and [new]. *)
Definition replace_char (old new : ascii) (s : str) : str :=
  map (fun c => if Ascii.eqb c old then new else c) s.

(** [s.lstrip()], [s.rstrip()] and [s.strip()]. *)
Fixpoint lstrip (s : str) : str :=
  match s with
  | [] => []
  | c :: s' => if isspace c then lstrip s' else s
  end.

Definition rstrip (s : str) : str := rev (lstrip (rev s)).

Definition strip (s : str) : str := rstrip (lstrip s).

(** [s.startswith(p)] *)
Fixpoint startswith (s p : str) {struct p} : bool :=
  match p, s with
  | [], _ => true
  | _ :: _, [] => false
  | a :: p', b :: s' => Ascii.eqb a b && startswith s' p'
  end.

(** [sub in s] *)
Fixpoint contains (s sub : str) : bool :=
  startswith s sub ||
  match s with
  | [] => false
  | _ :: s' => contains s' sub
  end.

Definition str_eqb (a b : str) : bool :=
  if list_eq_dec ascii_dec a b then true else false.

End PyStr.

Import PyStr.

(** ** The regular expressions of [re] that the source uses

    The clause-break pattern is an alternation of sequences of character
    classes, each taken once, or under a greedy [*] or [+].  [match_here]
    is the backtracking matcher of [re] on such a sequence: a greedy
    quantifier first takes one more character and gives it back when the
    rest of the sequence fails.  The result is the number of characters of
    the match that [re] reports. *)

Module Re.

Inductive quant := One | Star | Plus.

Record atom := Atom { cls : ascii -> bool; qt : quant }.

Fixpoint match_here (re : list atom) : str -> option nat :=
  match re with
  | [] => fun _ => Some 0
  | a :: re' =>
      let k := match_here re' in
      let star :=
        fix star (s : str) : option nat :=
          match s with
          | c :: s' =>
              if cls a c then
                match star s' with
                | Some n => Some (S n)
                | None => k s
                end
              else k s
          | [] => k s
          end in
      match qt a with
      | One => fun s =>
          match s with
          | c :: s' => if cls a c then option_map S (k s') else None
          | [] => None
          end
      | Star => star
      | Plus => fun s =>
          match s with
          | c :: s' => if cls a c then option_map S (star s') else None
          | [] => None
          end
      end
  end.

(** [A|B|...]: the first alternative that matches at this position wins. *)
Fixpoint match_alt (alts : list (list atom)) (s : str) : option nat :=
  match alts with
  | [] => None
  | re :: alts' =>
      match match_here re s with
      | Some n => Some n
      | None => match_alt alts' s
      end
  end.

(** [re.split(pattern, text)] for a pattern without groups whose matches are
    never empty.  The text is scanned from the left; [cur] holds, reversed,
    the characters of the piece being built; when the pattern matches at
    the current position the piece is closed and the [skip] counter makes
    the scan pass over the rest of the match. *)
Fixpoint split_from (alts : list (list atom)) (s : str) (skip : nat) (cur : str)
  : list str :=
  match s with
  | [] => [rev cur]
  | c :: s' =>
      match skip with
      | S n => split_from alts s' n cur
      | O =>
          match match_alt alts s with
          | Some (S n) => rev cur :: split_from alts s' n []
          | _ => split_from alts s' 0 (c :: cur)
          end
      end
  end.

Definition split (alts : list (list atom)) (text : str) : list str :=
  split_from alts text 0 [].

End Re.

(** ** [segment_into_clauses] *)

Definition is_newline (c : ascii) : bool := Ascii.eqb c newline.
Definition is_dot (c : ascii) : bool := Ascii.eqb c (ascii_of_N 46).

(** [r'\n\s*\n+|\n\s*\d+\.'] *)
Definition CLAUSE_BREAK : list (list Re.atom) :=
  [ [ Re.Atom is_newline Re.One; Re.Atom isspace Re.Star; Re.Atom is_newline Re.Plus ];
    [ Re.Atom is_newline Re.One; Re.Atom isspace Re.Star; Re.Atom isdigit Re.Plus;
      Re.Atom is_dot Re.One ] ].

(** One entry of the list that [analyze_clause_risk] returns. *)
Record Finding := mkFinding {
  type : str;
  risk_level : str;
  matched_keywords : list str;
  rationale : str;
  suggestion : str
}.

(** One entry of the list that [segment_into_clauses] returns. *)
Record Clause := mkClause {
  id : nat;
  text : str;
  detected_risks : list Finding
}.

(** [enumerate(l)] *)
Fixpoint enumerate_from {A : Type} (i : nat) (l : list A) : list (nat * A) :=
  match l with
  | [] => []
  | x :: l' => (i, x) :: enumerate_from (S i) l'
  end.

Definition enumerate {A : Type} (l : list A) : list (nat * A) := enumerate_from 0 l.

(** The body of the loop over [enumerate(paragraphs)]. *)
Definition segment_step (clauses : list Clause) (ip : nat * str) : list Clause :=
  let '(i, para) := ip in
  let cleaned := strip para in
  if 50 <? length cleaned
  then clauses ++ [ {| id := i + 1; text := cleaned; detected_risks := [] |} ]
  else clauses.

Definition segment_into_clauses (text : str) : list Clause :=
  let paragraphs := Re.split CLAUSE_BREAK text in
  fold_left segment_step (enumerate paragraphs) [].

(** ** The risk taxonomy *)

(** The value stored under each key of [RISK_PATTERNS]. *)
Record RiskData := mkRiskData {
  keywords : list str;
  rd_risk_level : str;
  rd_rationale : str;
  rd_suggestion : str
}.

(** A dictionary literal, in insertion order, which is the order in which
    [dict.items()] yields it. *)
Definition dict (V : Type) := list (str * V).

(** [d.get(key, default)] *)
Fixpoint dict_get {V : Type} (d : dict V) (key : str) (default : V) : V :=
  match d with
  | [] => default
  | (k, v) :: d' => if str_eqb k key then v else dict_get d' key default
  end.

Definition RISK_PATTERNS : dict RiskData :=
  [ (py "liability",
     {| keywords := map py
          [ "unlimited liability"; "no limitation"; "all liability";
            "any and all liability"; "indemnify"; "hold harmless";
            "without limitation"; "to the fullest extent" ]%string;
        rd_risk_level := py "High";
        rd_rationale := py
          "Unlimited liability clauses expose the organization to excessive financial risk.";
        rd_suggestion := py
          "Liability should be limited to direct damages and capped at a reasonable amount (e.g., fees paid in the last 12 months)." |});
    (py "termination",
     {| keywords := map py
          [ "termination for convenience"; "terminate at will"; "without cause";
            "immediate termination"; "no notice" ]%string;
        rd_risk_level := py "Medium";
        rd_rationale := py
          "Lack of termination protections can result in sudden contract cancellations.";
        rd_suggestion := py
          "Include minimum notice periods (e.g., 30-90 days) and allow termination only for material breach or with adequate notice." |});
    (py "intellectual_property",
     {| keywords := map py
          [ "all rights"; "exclusive rights"; "assign all intellectual property";
            "waive all rights"; "work for hire"; "transfer of ownership" ]%string;
        rd_risk_level := py "High";
        rd_rationale := py
          "Broad IP assignment can result in loss of valuable intellectual property.";
        rd_suggestion := py
          "Limit IP transfer to only what is necessary for the specific project. Retain ownership of pre-existing IP and general methodologies." |});
    (py "confidentiality",
     {| keywords := map py
          [ "perpetual confidentiality"; "indefinite"; "in perpetuity";
            "no time limit"; "forever" ]%string;
        rd_risk_level := py "Medium";
        rd_rationale := py
          "Indefinite confidentiality obligations create long-term compliance burdens.";
        rd_suggestion := py
          "Limit confidentiality obligations to 3-5 years post-contract termination, with standard exceptions for publicly available information." |});
    (py "payment",
     {| keywords := map py
          [ "non-refundable"; "upfront payment"; "payment in full";
            "immediate payment"; "no refunds" ]%string;
        rd_risk_level := py "Medium";
        rd_rationale := py
          "Unfavorable payment terms can create cash flow issues and limit recourse.";
        rd_suggestion := py
          "Structure payments based on milestones or deliverables. Include provisions for refunds in case of non-performance." |});
    (py "warranty",
     {| keywords := map py
          [ "no warranty"; "as is"; "without warranty"; "disclaim all warranties";
            "no guarantee"; "express or implied" ]%string;
        rd_risk_level := py "High";
        rd_rationale := py
          "Absence of warranties leaves no recourse if deliverables are defective.";
        rd_suggestion := py
          "Include express warranties for fitness for purpose, merchantability, and compliance with specifications for a reasonable period." |});
    (py "dispute_resolution",
     {| keywords := map py
          [ "exclusive jurisdiction"; "mandatory arbitration"; "waive right to jury";
            "binding arbitration"; "foreign jurisdiction" ]%string;
        rd_risk_level := py "Medium";
        rd_rationale := py
          "Unfavorable dispute resolution terms can make it difficult and expensive to resolve conflicts.";
        rd_suggestion := py
          "Negotiate for mutual jurisdiction, mediation before arbitration, and reasonable venue selection." |});
    (py "force_majeure",
     {| keywords := map py
          [ "no force majeure"; "limited force majeure"; "excludes pandemic";
            "narrow force majeure" ]%string;
        rd_risk_level := py "Low";
        rd_rationale := py
          "Narrow force majeure clauses may not protect against unforeseen events.";
        rd_suggestion := py
          "Include comprehensive force majeure language covering natural disasters, pandemics, government actions, and other unforeseeable events." |})
  ].

(** ** [analyze_clause_risk] *)

(** [risk_type.replace('_', ' ').title()] *)
Definition type_name (risk_type : str) : str :=
  title (replace_char (ascii_of_N 95) (ascii_of_N 32) risk_type).

(** [[kw for kw in risk_data['keywords'] if kw.lower() in clause_lower]] *)
Definition find_matches (clause_lower : str) (risk_data : RiskData) : list str :=
  filter (fun kw => contains clause_lower (lower kw)) (keywords risk_data).

(** The body of the loop over [RISK_PATTERNS.items()]; a non-empty list is
    true in the test [if matches]. *)
Definition analyze_step (clause_lower : str) (detected_risks : list Finding)
  (item : str * RiskData) : list Finding :=
  let '(risk_type, risk_data) := item in
  let matches := find_matches clause_lower risk_data in
  match matches with
  | [] => detected_risks
  | _ :: _ =>
      detected_risks ++
        [ {| type := type_name risk_type;
             risk_level := rd_risk_level risk_data;
             matched_keywords := matches;
             rationale := rd_rationale risk_data;
             suggestion := rd_suggestion risk_data |} ]
  end.

(** [analyze_clause_risk] over a given content of the global [RISK_PATTERNS]. *)
Definition analyze_with (patterns : dict RiskData) (clause_text : str) : list Finding :=
  let clause_lower := lower clause_text in
  fold_left (analyze_step clause_lower) patterns [].

Definition analyze_clause_risk (clause_text : str) : list Finding :=
  analyze_with RISK_PATTERNS clause_text.

(** ** [generate_redline] *)

(** A template of [suggestions]: the label, then the proposed wording
    between double quotes. *)
Definition redline (wording : string) : str :=
  py "SUGGESTED REDLINE: " ++ dquote :: py wording ++ [dquote].

Definition suggestions : dict str :=
  [ (py "Liability", redline
      "Party's total liability under this Agreement shall be limited to direct damages only and shall not exceed the total fees paid by Client in the twelve (12) months preceding the claim.");
    (py "Termination", redline
      "Either party may terminate this Agreement for convenience upon ninety (90) days prior written notice. In case of material breach, termination may occur with thirty (30) days notice and opportunity to cure.");
    (py "Intellectual Property", redline
      "Client shall own IP specifically created for this project. Provider retains ownership of pre-existing IP, tools, methodologies, and any general knowledge or experience gained.");
    (py "Confidentiality", redline
      "Confidentiality obligations shall survive for three (3) years following termination, except for information that: (a) is publicly available, (b) was known prior to disclosure, or (c) is independently developed.");
    (py "Payment", redline
      "Payment shall be made in installments based on project milestones: 30% upon signing, 40% upon milestone completion, 30% upon final delivery and acceptance.");
    (py "Warranty", redline
      "Provider warrants that deliverables will conform to specifications and be fit for their intended purpose for ninety (90) days. Provider will remedy any defects at no additional cost during this period.");
    (py "Dispute Resolution", redline
      "Disputes shall first be addressed through good-faith negotiation, followed by mediation if necessary. If unresolved, disputes may proceed to arbitration under mutually agreed rules in a neutral jurisdiction.");
    (py "Force Majeure", redline
      "Neither party shall be liable for delays or failures due to force majeure events including natural disasters, pandemics, war, government actions, or other events beyond reasonable control.")
  ].

Definition NO_REDLINE : str := py "No specific redline suggestion available.".

Definition generate_redline (original_text risk_type : str) : str :=
  dict_get suggestions risk_type NO_REDLINE.

(** ** The analysis that [main] runs on the pasted or extracted text *)

(** [for clause in clauses: clause['detected_risks'] = analyze_clause_risk(clause['text'])] *)
Definition analyze_clauses (clauses : list Clause) : list Clause :=
  map (fun clause =>
         {| id := id clause; text := text clause;
            detected_risks := analyze_clause_risk (text clause) |}) clauses.

(** [sum(len(c['detected_risks']) for c in clauses)] *)
Definition total_risks (clauses : list Clause) : nat :=
  fold_left Nat.add (map (fun c => length (detected_risks c)) clauses) 0.

Definition analyze_contract (contract_text : str) : list Clause :=
  analyze_clauses (segment_into_clauses contract_text).

(** * Notions used by the statements *)

(** ** The two loops, one turn at a time *)

(** What one turn of the loop of [segment_into_clauses] adds to [clauses]. *)
Definition segment_emit (ip : nat * str) : list Clause :=
  let '(i, para) := ip in
  if 50 <? length (strip para)
  then [ {| id := i + 1; text := strip para; detected_risks := [] |} ]
  else [].

(** What one turn of the loop over the taxonomy adds to [detected_risks]. *)
Definition analyze_emit (clause_lower : str) (item : str * RiskData) : list Finding :=
  let '(risk_type, risk_data) := item in
  match find_matches clause_lower risk_data with
  | [] => []
  | _ :: _ =>
      [ {| type := type_name risk_type;
           risk_level := rd_risk_level risk_data;
           matched_keywords := find_matches clause_lower risk_data;
           rationale := rd_rationale risk_data;
           suggestion := rd_suggestion risk_data |} ]
  end.

(** ** Segmentation *)

(** The pieces with the separators between them. *)
Fixpoint weave (pieces seps : list str) : str :=
  match pieces with
  | [] => []
  | p :: pieces' =>
      match seps with
      | [] => p
      | sep :: seps' => p ++ sep ++ weave pieces' seps'
      end
  end.

(** The ids of [clauses] are 1, 2, ..., N. *)
Definition ids_dense (clauses : list Clause) : Prop :=
  map id clauses = seq 1 (length clauses).

(** ** Letter case *)

(** Two characters that are the same letter: equal, or an upper-case letter
    and its lower-case partner. *)
Definition same_letter (a b : ascii) : Prop :=
  a = b \/
  (isupper a = true /\ code b = (code a + 32)%N) \/
  (isupper b = true /\ code a = (code b + 32)%N).

(** Two texts that differ in letter case only. *)
Definition case_variant (s t : str) : Prop := Forall2 same_letter s t.

(** The keyword occurs in the clause, letter case apart: some contiguous
    part of the clause differs from the keyword in letter case only. *)
Definition keyword_occurs (kw clause_text : str) : Prop :=
  exists pre mid post,
    clause_text = pre ++ mid ++ post /\ case_variant mid kw.

(** ** The classifier as the specification words it *)

(** The finding for a category that matched. *)
Definition finding_of (clause_text : str) (category : str * RiskData) : Finding :=
  {| type := type_name (fst category);
     risk_level := rd_risk_level (snd category);
     matched_keywords :=
       filter (fun kw => contains (lower clause_text) (lower kw))
              (keywords (snd category));
     rationale := rd_rationale (snd category);
     suggestion := rd_suggestion (snd category) |}.

(** A category matches when at least one of its keywords occurs. *)
Definition category_matches (clause_text : str) (category : str * RiskData) : bool :=
  existsb (fun kw => contains (lower clause_text) (lower kw))
          (keywords (snd category)).

(** One finding for every matching category, in the order of the taxonomy. *)
Definition classify (taxonomy : dict RiskData) (clause_text : str) : list Finding :=
  map (finding_of clause_text) (filter (category_matches clause_text) taxonomy).

(** The clause has a liability finding that reports the keyword [kw]. *)
Definition liability_reports (clause_text kw : str) : Prop :=
  exists f, In f (analyze_clause_risk clause_text) /\
            type f = py "Liability" /\ In kw (matched_keywords f).

(** The types and the matched keywords of the findings of a clause. *)
Definition summary (findings : list Finding) : list (str * list str) :=
  map (fun f => (type f, matched_keywords f)) findings.

Definition str_dec : forall a b : str, {a = b} + {a <> b} := list_eq_dec ascii_dec.

(** ** Calls in sequence, with the lists as objects

    A Python list is an object: two names can hold the same list, and a
    change made through one shows through the other.  The lists that
    [analyze_clause_risk] meets are the keyword lists of [RISK_PATTERNS],
    which it reads, and the list [matches] that the comprehension builds
    anew in every turn of the loop and that the finding then holds.  Here
    the lists live in a store, by address; strings cannot change and stay
    values. *)

Module Store.

Definition addr := nat.

(** The list objects that exist, the one at address [a] in position [a]. *)
Definition store := list (list str).

Definition St (A : Type) : Type := store -> A * store.

Definition ret {A : Type} (x : A) : St A := fun s => (x, s).

Definition bind {A B : Type} (m : St A) (k : A -> St B) : St B :=
  fun s => let '(x, s') := m s in k x s'.

Notation "x <- m ;; k" := (bind m (fun x => k))
  (at level 61, m at next level, right associativity).

(** Reading the list at an address. *)
Definition load (a : addr) : St (list str) := fun s => (nth a s [], s).

(** A new list object, at the next free address. *)
Definition new_list (items : list str) : St addr :=
  fun s => (length s, s ++ [items]).

(** A value of [RISK_PATTERNS], holding its keyword list by address. *)
Record RiskDataRef := mkRiskDataRef {
  keywords_at : addr;
  ref_risk_level : str;
  ref_rationale : str;
  ref_suggestion : str
}.

(** A finding, holding its list of matched keywords by address. *)
Record FindingRef := mkFindingRef {
  ref_type : str;
  ref_level : str;
  matched_keywords_at : addr;
  ref_finding_rationale : str;
  ref_finding_suggestion : str
}.

(** One turn of the loop: the comprehension reads the keyword list and
    builds the new list [matches]; the finding holds that list. *)
Definition analyze_step (clause_lower : str) (detected_risks : list FindingRef)
  (item : str * RiskDataRef) : St (list FindingRef) :=
  let '(risk_type, risk_data) := item in
  all_keywords <- load (keywords_at risk_data) ;;
  let matches_value :=
    filter (fun kw => contains clause_lower (lower kw)) all_keywords in
  matches <- new_list matches_value ;;
  ret (match matches_value with
       | [] => detected_risks
       | _ :: _ =>
           detected_risks ++
             [ {| ref_type := type_name risk_type;
                  ref_level := ref_risk_level risk_data;
                  matched_keywords_at := matches;
                  ref_finding_rationale := ref_rationale risk_data;
                  ref_finding_suggestion := ref_suggestion risk_data |} ]
       end).

(** The loop over the items. *)
Fixpoint analyze_loop (clause_lower : str) (items : dict RiskDataRef)
  (detected_risks : list FindingRef) : St (list FindingRef) :=
  match items with
  | [] => ret detected_risks
  | item :: items' =>
      detected_risks' <- analyze_step clause_lower detected_risks item ;;
      analyze_loop clause_lower items' detected_risks'
  end.

(** A call of [analyze_clause_risk(clause_text)] when the global
    [RISK_PATTERNS] holds [patterns]. *)
Definition analyze_clause_risk (patterns : dict RiskDataRef) (clause_text : str)
  : St (list FindingRef) :=
  analyze_loop (lower clause_text) patterns [].

(** What a finding shows when its list is read in the store. *)
Definition finding_value (s : store) (f : FindingRef) : Finding :=
  {| type := ref_type f;
     risk_level := ref_level f;
     matched_keywords := nth (matched_keywords_at f) s [];
     rationale := ref_finding_rationale f;
     suggestion := ref_finding_suggestion f |}.

(** What the taxonomy holds when its lists are read in the store. *)
Definition patterns_value (s : store) (patterns : dict RiskDataRef) : dict RiskData :=
  map (fun item : str * RiskDataRef =>
         (fst item,
          {| keywords := nth (keywords_at (snd item)) s [];
             rd_risk_level := ref_risk_level (snd item);
             rd_rationale := ref_rationale (snd item);
             rd_suggestion := ref_suggestion (snd item) |})) patterns.

(** Every keyword list of the taxonomy exists in the store. *)
Definition patterns_in (s : store) (patterns : dict RiskDataRef) : Prop :=
  Forall (fun item : str * RiskDataRef => keywords_at (snd item) < length s) patterns.

(** The module body: the keyword lists are created one after the other. *)
Fixpoint store_patterns (patterns : dict RiskData) (s : store)
  : dict RiskDataRef * store :=
  match patterns with
  | [] => ([], s)
  | (risk_type, risk_data) :: patterns' =>
      let '(at_keywords, s1) := new_list (keywords risk_data) s in
      let '(refs, s2) := store_patterns patterns' s1 in
      ((risk_type,
        {| keywords_at := at_keywords;
           ref_risk_level := rd_risk_level risk_data;
           ref_rationale := rd_rationale risk_data;
           ref_suggestion := rd_suggestion risk_data |}) :: refs, s2)
  end.

(** [RISK_PATTERNS] and the store as the module body leaves them. *)
Definition module_patterns : dict RiskDataRef := fst (store_patterns RISK_PATTERNS []).
Definition module_store : store := snd (store_patterns RISK_PATTERNS []).

(** The same store after the caller has appended a word to the list at
    address [a], as in [finding['matched_keywords'].append(word)]. *)
Fixpoint append_at (a : addr) (word : str) (s : store) : store :=
  match s with
  | [] => []
  | items :: s' =>
      match a with
      | O => (items ++ [word]) :: s'
      | S a' => items :: append_at a' word s'
      end
  end.

End Store.

(** ** Sample texts *)

(** A paragraph of 60 characters. *)
Definition liability_paragraph : str :=
  py "This agreement provides unlimited liability and no warranty.".

(** A paragraph of 31 characters. *)
Definition termination_paragraph : str := py "Termination requires no notice.".

(** The text of the two-paragraph scenario: the two paragraphs and a blank
    line between them. *)
Definition scenario_text : str :=
  liability_paragraph ++ [newline; newline] ++ termination_paragraph.

(** The same scenario with a second paragraph of 64 characters. *)
Definition long_termination_paragraph : str :=
  py "Termination requires no notice and takes effect on the same day.".

Definition long_scenario_text : str :=
  liability_paragraph ++ [newline; newline] ++ long_termination_paragraph.

(** A short heading, a blank line, then the first paragraph. *)
Definition heading_then_paragraph : str :=
  py "Definitions" ++ [newline; newline] ++ liability_paragraph.

(** [n] times the letter [x], a paragraph of [n] characters. *)
Definition letters (n : nat) : str := repeat (ascii_of_N 120) n.

(** A text of white space only. *)
Definition blank_text : str :=
  [ascii_of_N 32; newline; newline; ascii_of_N 9; ascii_of_N 32; newline].

Definition INDEMNIFY_upper : str := py "INDEMNIFY".
Definition indemnify_lower : str := py "indemnify".

(** * The rest of [app.py] *)

(** ** [extract_text_from_pdf]

    [PyPDF2] is seen through what it hands to the function: opening the
    file gives the pages or raises, and [extract_text] on a page gives its
    text or raises.  An exception carries the text that [str(e)] shows. *)

Inductive outcome (A : Type) : Type :=
  | Returns (value : A)
  | Raises (message : str).

Arguments Returns {A} value.
Arguments Raises {A} message.

(** What [PyPDF2.PdfReader(pdf_file)] and its pages do. *)
Definition PdfFile := outcome (list (outcome str)).

(** The loop [for page in pdf_reader.pages: text += page.extract_text()]. *)
Fixpoint extract_pages (pages : list (outcome str)) (text : str) : outcome str :=
  match pages with
  | [] => Returns text
  | page :: pages' =>
      match page with
      | Returns page_text => extract_pages pages' (text ++ page_text)
      | Raises e => Raises e
      end
  end.

(** The result, [None] after an exception, and the messages given to
    [st.error]. *)
Definition extract_text_from_pdf (pdf_file : PdfFile) : option str * list str :=
  let body :=
    match pdf_file with
    | Returns pages => extract_pages pages []
    | Raises e => Raises e
    end in
  match body with
  | Returns text => (Some text, [])
  | Raises e => (None, [py "Error extracting PDF: " ++ e])
  end.

(** ** The statistics of [main] *)

(** [any(r['risk_level'] == 'High' for r in c['detected_risks'])] *)
Definition has_high_risk (c : Clause) : bool :=
  existsb (fun r => str_eqb (risk_level r) (py "High")) (detected_risks c).

(** [sum(1 for c in clauses if any(...))] *)
Definition high_risk_clauses (clauses : list Clause) : nat :=
  fold_left Nat.add (map (fun _ => 1) (filter has_high_risk clauses)) 0.

(** ** The review tab of [main] *)

(** [d[key]], which raises [KeyError], here [None], for a missing key. *)
Fixpoint dict_index {V : Type} (d : dict V) (key : str) : option V :=
  match d with
  | [] => None
  | (k, v) :: d' => if str_eqb k key then Some v else dict_index d' key
  end.

(** The badges [{"High": ..., "Medium": ..., "Low": ...}]; each value is a
    string of one code point, a coloured circle, given here by its number:
    U+1F534, U+1F7E1 and U+1F7E2. *)
Definition badge_colors : dict N :=
  [ (py "High", 128308%N); (py "Medium", 128993%N); (py "Low", 128994%N) ].

(** The default of the multiselect, all three levels. *)
Definition all_levels : list str := [py "High"; py "Medium"; py "Low"].

(** [level in risk_filter] *)
Definition level_in (risk_filter : list str) (level : str) : bool :=
  existsb (fun selected => str_eqb selected level) risk_filter.

(** The test that guards the expander of a clause: [if clause['detected_risks']]
    and then [if any(r['risk_level'] in risk_filter for r in ...)]. *)
Definition clause_shown (risk_filter : list str) (clause : Clause) : bool :=
  match detected_risks clause with
  | [] => false
  | _ :: _ =>
      existsb (fun r => level_in risk_filter (risk_level r)) (detected_risks clause)
  end.

(** The clauses for which the loop of the review tab opens an expander. *)
Definition shown_clauses (risk_filter : list str) (clauses : list Clause) : list Clause :=
  filter (clause_shown risk_filter) clauses.

(** [not any(c['detected_risks'] for c in clauses)], the test of the message
    that no significant risk was detected. *)
Definition no_risks_message (clauses : list Clause) : bool :=
  negb (existsb (fun c => match detected_risks c with [] => false | _ :: _ => true end)
          clauses).

(** [str(n)] for a number that is not negative. *)
Definition str_of_nat (n : nat) : str :=
  py (DecimalString.NilEmpty.string_of_uint (Nat.to_uint n)).

(** [f"clause_{clause['id']}"], the key of the text area of a clause. *)
Definition widget_key (clause : Clause) : str :=
  py "clause_" ++ str_of_nat (id clause).

(** ** Clause breaks, said without the matcher *)

(** The texts that a sequence of character classes describes. *)
Inductive Matches : list Re.atom -> str -> Prop :=
  | Matches_nil : Matches [] []
  | Matches_one p re c s :
      p c = true -> Matches re s ->
      Matches (Re.Atom p Re.One :: re) (c :: s)
  | Matches_star_stop p re s :
      Matches re s -> Matches (Re.Atom p Re.Star :: re) s
  | Matches_star_more p re c s :
      p c = true -> Matches (Re.Atom p Re.Star :: re) s ->
      Matches (Re.Atom p Re.Star :: re) (c :: s)
  | Matches_plus p re c s :
      p c = true -> Matches (Re.Atom p Re.Star :: re) s ->
      Matches (Re.Atom p Re.Plus :: re) (c :: s).

(** A newline, white space, and one or more newlines: a blank line. *)
Definition blank_line_break (sep : str) : Prop :=
  exists ws nls,
    sep = newline :: ws ++ newline :: nls /\
    forallb isspace ws = true /\ forallb is_newline nls = true.

(** A newline, white space, one or more digits and a dot: the number that
    opens a section. *)
Definition numbered_break (sep : str) : Prop :=
  exists ws d ds,
    sep = newline :: ws ++ d :: ds ++ [ascii_of_N 46] /\
    forallb isspace ws = true /\ forallb isdigit (d :: ds) = true.

Definition is_clause_break (sep : str) : Prop :=
  blank_line_break sep \/ numbered_break sep.

(** The text has a clause break somewhere inside. *)
Definition contains_break (s : str) : Prop :=
  exists before sep after, s = before ++ sep ++ after /\ is_clause_break sep.

(** A paragraph as an author types it: no newline in it, and not blank. *)
Definition plain_paragraph (para : str) : Prop :=
  ~ In newline para /\ forallb isspace para = false.

(** The paragraphs with a blank line, two newlines, between them. *)
Fixpoint join_paragraphs (paragraphs : list str) : str :=
  match paragraphs with
  | [] => []
  | [para] => para
  | para :: rest => para ++ newline :: newline :: join_paragraphs rest
  end.

(** The text goes on with a clause break. *)
Definition starts_break (s : str) : Prop :=
  exists sep rest, s = sep ++ rest /\ is_clause_break sep.

(** The text first has characters that are no newline, white space or not,
    and then one that is not white space. *)
Definition opens_line (s : str) : Prop :=
  exists sp x rest,
    s = sp ++ x :: rest /\
    forallb (fun c => negb (is_newline c)) sp = true /\ isspace x = false.

(** The clause has at least one finding. *)
Definition has_findings (c : Clause) : bool :=
  match detected_risks c with [] => false | _ :: _ => true end.

Definition underscore : ascii := ascii_of_N 95.

(** [sum] of the lengths of the texts. *)
Definition total_length (texts : list str) : nat :=
  list_sum (map (@length ascii) texts).

(** ** Upper case

    [s.upper()] on the code points below 256.  The sharp s becomes two
    letters; the micro sign and the y with diaeresis become code points
    above 255, which the model does not hold, so there is no result for
    them. *)

Definition upper_char (c : ascii) : option str :=
  if between 97 122 c || (between 224 254 c && negb (code c =? 247)%N)
  then Some [ascii_of_N (code c - 32)]
  else if (code c =? 223)%N then Some (py "SS")
  else if (code c =? 181)%N || (code c =? 255)%N then None
  else Some [c].

Fixpoint upper (s : str) : option str :=
  match s with
  | [] => Some []
  | c :: s' =>
      match upper_char c, upper s' with
      | Some u, Some rest => Some (u ++ rest)
      | _, _ => None
      end
  end.

(** A clause with a sharp s, U+00DF, where its upper-case form has SS. *)
Definition sharp_s_clause : str :=
  py "Sold expre" ++ [ascii_of_N 223] ++ py " or implied".

Definition SHARP_S_CLAUSE_upper : str := py "SOLD EXPRESS OR IMPLIED".

(** ** Findings by type and keyword *)


(** Every character is an ASCII character. *)
Definition is_ascii_text (s : str) : Prop := Forall (fun c => (code c < 128)%N) s.

(** * Properties *)

(** ** Lists built by a loop that appends *)

Section AppendLoops.

Context {A B : Type}.
Variable step : list B -> A -> list B.
Variable emit : A -> list B.
Hypothesis step_appends : forall acc x, step acc x = acc ++ emit x.

Lemma fold_left_appends (l : list A) (acc : list B) :
  fold_left step l acc = acc ++ flat_map emit l.
Proof.
  revert acc; induction l as [|x l IH]; intros acc; simpl.
  - now rewrite app_nil_r.
  - rewrite IH, step_appends, <- app_assoc. reflexivity.
Qed.

End AppendLoops.

Lemma in_enumerate_from {A : Type} (l : list A) (i j : nat) (x : A) :
  In (j, x) (enumerate_from i l) <-> i <= j /\ nth_error l (j - i) = Some x.
Proof.
  revert i; induction l as [|y l IH]; intros i; simpl.
  - split; [tauto|]. intros [_ H]. destruct (j - i); discriminate.
  - rewrite IH. split.
    + intros [E | [Hle Hn]].
      * inversion E; subst. rewrite Nat.sub_diag. split; [lia | reflexivity].
      * split; [lia|]. replace (j - i) with (S (j - S i)) by lia. exact Hn.
    + intros [Hle Hn]. destruct (Nat.eq_dec i j) as [->|Hne].
      * rewrite Nat.sub_diag in Hn. left. simpl in Hn. congruence.
      * right. split; [lia|]. replace (j - i) with (S (j - S i)) in Hn by lia.
        exact Hn.
Qed.

(** ** Strings *)

Lemma startswith_spec (s p : str) :
  startswith s p = true <-> exists post, s = p ++ post.
Proof.
  revert s; induction p as [|a p IH]; intros s; simpl.
  - split; [intros _; now exists s | reflexivity].
  - destruct s as [|b s].
    + split; [discriminate | intros [post H]; discriminate].
    + rewrite andb_true_iff, Ascii.eqb_eq, IH. split.
      * intros [-> [post ->]]. now exists post.
      * intros [post H]. inversion H; subst. split; [reflexivity | now exists post].
Qed.

(** The [in] operator finds exactly the contiguous occurrences. *)
Lemma contains_spec (s sub : str) :
  contains s sub = true <-> exists pre post, s = pre ++ sub ++ post.
Proof.
  induction s as [|c s IH]; simpl.
  - rewrite orb_false_r, startswith_spec. split.
    + intros [post H]. now exists [], post.
    + intros [pre [post H]]. destruct pre; simpl in H.
      * now exists post.
      * discriminate.
  - rewrite orb_true_iff, startswith_spec, IH. split.
    + intros [[post H] | [pre [post H]]].
      * now exists [], post.
      * exists (c :: pre), post. simpl. now rewrite H.
    + intros [pre [post H]]. destruct pre as [|d pre]; simpl in H.
      * left. now exists post.
      * right. inversion H; subst. now exists pre, post.
Qed.

Lemma lstrip_decompose (s : str) :
  exists ws, s = ws ++ lstrip s /\ forallb isspace ws = true.
Proof.
  induction s as [|c s [ws [E F]]]; simpl.
  - now exists [].
  - destruct (isspace c) eqn:Hc.
    + exists (c :: ws). simpl. rewrite Hc, F. split; [now rewrite <- E | reflexivity].
    + now exists [].
Qed.

Lemma lstrip_head (s r : str) (c : ascii) :
  lstrip s = c :: r -> isspace c = false.
Proof.
  induction s as [|d s IH]; simpl; [discriminate|].
  destruct (isspace d) eqn:Hd; [exact IH|].
  intros E; inversion E; subst; exact Hd.
Qed.

Lemma lstrip_fixed (s r : str) (c : ascii) :
  s = c :: r -> isspace c = false -> lstrip s = s.
Proof. intros -> H. simpl. now rewrite H. Qed.

Lemma lstrip_spaces (s : str) :
  forallb isspace s = true -> lstrip s = [].
Proof.
  induction s as [|c s IH]; simpl; [reflexivity|].
  rewrite andb_true_iff. intros [Hc Hs]. rewrite Hc. auto.
Qed.

(** What is left of [lstrip] keeps its last character. *)
Lemma lstrip_snoc (s : str) (c : ascii) :
  isspace c = false -> lstrip (s ++ [c]) = lstrip s ++ [c].
Proof.
  intros Hc. induction s as [|d s IH]; simpl.
  - now rewrite Hc.
  - destruct (isspace d); [exact IH | reflexivity].
Qed.

Lemma rstrip_decompose (s : str) :
  exists ws, s = rstrip s ++ ws /\ forallb isspace ws = true.
Proof.
  unfold rstrip. destruct (lstrip_decompose (rev s)) as [ws [E F]].
  exists (rev ws). split.
  - rewrite <- rev_app_distr, <- E. now rewrite rev_involutive.
  - rewrite forallb_forall in *. intros x Hx. apply F. now apply in_rev.
Qed.

Lemma rstrip_last (s r : str) (c : ascii) :
  rstrip s = r ++ [c] -> isspace c = false.
Proof.
  unfold rstrip. intros E.
  apply (f_equal (@rev ascii)) in E. rewrite rev_involutive, rev_app_distr in E.
  simpl in E. exact (lstrip_head _ _ _ E).
Qed.

Lemma rstrip_head (s : str) (c : ascii) :
  isspace c = false -> exists r', rstrip (c :: s) = c :: r'.
Proof.
  intros Hc. unfold rstrip. simpl. rewrite lstrip_snoc by exact Hc.
  rewrite rev_app_distr. simpl. eauto.
Qed.

(** [strip] cuts white space, and only white space, at both ends. *)
Lemma strip_decompose (s : str) :
  exists ws1 ws2, s = ws1 ++ strip s ++ ws2 /\
    forallb isspace ws1 = true /\ forallb isspace ws2 = true.
Proof.
  destruct (lstrip_decompose s) as [ws1 [E1 F1]].
  destruct (rstrip_decompose (lstrip s)) as [ws2 [E2 F2]].
  exists ws1, ws2. unfold strip. rewrite <- E2. auto.
Qed.

Lemma strip_no_leading_space (s r : str) (c : ascii) :
  strip s = c :: r -> isspace c = false.
Proof.
  unfold strip. intros E.
  destruct (lstrip s) as [|d l] eqn:El.
  - discriminate E.
  - pose proof (lstrip_head _ _ _ El) as Hd.
    destruct (rstrip_head l d Hd) as [r' E']. rewrite E' in E.
    inversion E; subst; exact Hd.
Qed.

Lemma strip_no_trailing_space (s r : str) (c : ascii) :
  strip s = r ++ [c] -> isspace c = false.
Proof. unfold strip. apply rstrip_last. Qed.

Lemma strip_spaces (s : str) :
  forallb isspace s = true -> strip s = [].
Proof. intros H. unfold strip. now rewrite (lstrip_spaces s H). Qed.

Lemma rstrip_fixed (s : str) (c : ascii) :
  isspace c = false -> rstrip (s ++ [c]) = s ++ [c].
Proof.
  intros Hc. unfold rstrip. rewrite rev_app_distr. simpl. rewrite Hc.
  simpl. now rewrite rev_involutive.
Qed.

Lemma strip_idempotent (s : str) : strip (strip s) = strip s.
Proof.
  destruct (strip s) as [|c r] eqn:E; [reflexivity|].
  pose proof (strip_no_leading_space _ _ _ E) as Hc.
  destruct (exists_last (l := c :: r)) as [r' [d E']]; [discriminate|].
  pose proof E as E2. rewrite E' in E2.
  pose proof (strip_no_trailing_space _ _ _ E2) as Hd.
  unfold strip at 1. rewrite (lstrip_fixed (c :: r) r c eq_refl Hc).
  rewrite E'. apply rstrip_fixed; exact Hd.
Qed.

(** ** [re.split] *)

Section Split.

Variable alts : list (list Re.atom).

(** Passing over the rest of a match is dropping it from the text: after a
    match of [S n] characters at [c :: s], [re.split] goes on with the text
    behind the match. *)
Lemma split_from_skip (s : str) (n : nat) (cur : str) :
  Re.split_from alts s n cur = Re.split_from alts (skipn n s) 0 cur.
Proof.
  revert n; induction s as [|c s IH]; intros n.
  - destruct n; reflexivity.
  - destruct n as [|n]; [reflexivity|]. simpl skipn. rewrite <- IH. reflexivity.
Qed.

Lemma split_from_match (c : ascii) (s cur : str) (n : nat) :
  Re.match_alt alts (c :: s) = Some (S n) ->
  Re.split_from alts (c :: s) 0 cur = rev cur :: Re.split alts (skipn n s).
Proof.
  intros H. simpl. rewrite H. unfold Re.split. now rewrite split_from_skip.
Qed.

Lemma split_from_no_match (c : ascii) (s cur : str) :
  Re.match_alt alts (c :: s) = None ->
  Re.split_from alts (c :: s) 0 cur = Re.split_from alts s 0 (c :: cur).
Proof. intros H. simpl. now rewrite H. Qed.

(** Every character of a piece is a character of the text. *)
Lemma split_from_chars (P : ascii -> Prop) (s : str) :
  forall skip cur, Forall P s -> Forall P cur ->
    Forall (Forall P) (Re.split_from alts s skip cur).
Proof.
  induction s as [|c s IH]; intros skip cur Hs Hcur; simpl.
  - constructor; [|constructor]. apply Forall_rev; exact Hcur.
  - inversion Hs as [|? ? Hc Hs']; subst.
    destruct skip as [|n]; [|now apply IH].
    destruct (Re.match_alt alts (c :: s)) as [[|n]|].
    + apply IH; [exact Hs' | now constructor].
    + constructor; [now apply Forall_rev | now apply IH].
    + apply IH; [exact Hs' | now constructor].
Qed.

(** The pieces are cut out of the text from left to right: putting the
    matched separators back between them gives the text again. *)
Lemma split_from_weave (s : str) :
  forall skip cur, exists seps,
    S (length seps) = length (Re.split_from alts s skip cur) /\
    Forall (fun sep => sep <> []) seps /\
    weave (Re.split_from alts s skip cur) seps = rev cur ++ skipn skip s.
Proof.
  induction s as [|c s IH]; intros skip cur.
  - exists []. simpl. rewrite skipn_nil, app_nil_r. auto.
  - destruct skip as [|n]; simpl.
    + destruct (Re.match_alt alts (c :: s)) as [[|n]|].
      * destruct (IH 0 (c :: cur)) as [seps [L [N W]]]. exists seps.
        simpl in W. rewrite <- app_assoc in W. auto.
      * destruct (IH n []) as [seps [L [N W]]].
        exists ((c :: firstn n s) :: seps). simpl. repeat split.
        -- now rewrite L.
        -- constructor; [discriminate | exact N].
        -- simpl in W. rewrite W. now rewrite firstn_skipn.
      * destruct (IH 0 (c :: cur)) as [seps [L [N W]]]. exists seps.
        simpl in W. rewrite <- app_assoc in W. auto.
    + exact (IH n cur).
Qed.

End Split.

Lemma split_weave (text : str) :
  exists seps,
    S (length seps) = length (Re.split CLAUSE_BREAK text) /\
    Forall (fun sep => sep <> []) seps /\
    weave (Re.split CLAUSE_BREAK text) seps = text.
Proof.
  destruct (split_from_weave CLAUSE_BREAK text 0 []) as [seps H].
  exists seps. exact H.
Qed.

(** A clause break starts at a newline. *)
Lemma clause_break_needs_newline (c : ascii) (s : str) :
  is_newline c = false -> Re.match_alt CLAUSE_BREAK (c :: s) = None.
Proof. intros H. simpl. now rewrite H. Qed.

Lemma split_from_one_piece (s : str) :
  forall cur, ~ In newline s ->
    Re.split_from CLAUSE_BREAK s 0 cur = [rev cur ++ s].
Proof.
  induction s as [|c s IH]; intros cur Hn.
  - simpl. now rewrite app_nil_r.
  - rewrite split_from_no_match.
    + rewrite IH.
      * simpl. now rewrite <- app_assoc.
      * intros Hin. apply Hn. now right.
    + apply clause_break_needs_newline. unfold is_newline.
      apply Ascii.eqb_neq. intros ->. apply Hn. now left.
Qed.

(** A text without a newline is one paragraph. *)
Lemma split_one_piece (s : str) :
  ~ In newline s -> Re.split CLAUSE_BREAK s = [s].
Proof. intros H. unfold Re.split. now rewrite split_from_one_piece. Qed.

(** ** Segmentation *)

Lemma segment_step_appends (clauses : list Clause) (ip : nat * str) :
  segment_step clauses ip = clauses ++ segment_emit ip.
Proof.
  destruct ip as [i para]. unfold segment_step, segment_emit.
  destruct (50 <? length (strip para)); [reflexivity | now rewrite app_nil_r].
Qed.

Lemma segment_into_clauses_eq (text : str) :
  segment_into_clauses text =
  flat_map segment_emit (enumerate (Re.split CLAUSE_BREAK text)).
Proof.
  unfold segment_into_clauses.
  now rewrite (fold_left_appends _ _ segment_step_appends).
Qed.

Lemma in_segment_emit (c : Clause) (i : nat) (para : str) :
  In c (segment_emit (i, para)) <->
  50 < length (strip para) /\
  c = {| id := i + 1; text := strip para; detected_risks := [] |}.
Proof.
  unfold segment_emit. destruct (Nat.ltb_spec 50 (length (strip para))); simpl.
  - split; [intros [<-|[]]; auto | intros [_ ->]; auto].
  - split; [tauto | lia].
Qed.

(** The clauses are the paragraphs longer than 50 characters once trimmed,
    each under the number of its paragraph. *)
Lemma in_segment_into_clauses (text : str) (c : Clause) :
  In c (segment_into_clauses text) <->
  exists i para,
    nth_error (Re.split CLAUSE_BREAK text) i = Some para /\
    50 < length (strip para) /\
    c = {| id := i + 1; text := strip para; detected_risks := [] |}.
Proof.
  rewrite segment_into_clauses_eq, in_flat_map. split.
  - intros [[i para] [Hin Hc]]. apply in_enumerate_from in Hin.
    apply in_segment_emit in Hc. exists i, para.
    rewrite Nat.sub_0_r in Hin. tauto.
  - intros [i [para [Hn [Hl ->]]]]. exists (i, para). split.
    + apply in_enumerate_from. rewrite Nat.sub_0_r. split; [lia | exact Hn].
    + apply in_segment_emit. auto.
Qed.

Lemma segment_ids_sorted_from (l : list str) :
  forall i,
    StronglySorted lt (map id (flat_map segment_emit (enumerate_from i l))) /\
    Forall (fun k => i < k) (map id (flat_map segment_emit (enumerate_from i l))).
Proof.
  induction l as [|para l IH]; intros i; simpl.
  - split; constructor.
  - destruct (IH (S i)) as [Hs Hf].
    assert (Hf' : Forall (fun k => i < k)
                    (map id (flat_map segment_emit (enumerate_from (S i) l)))).
    { eapply Forall_impl; [|exact Hf]. simpl. intros; lia. }
    destruct (50 <? length (strip para)); simpl.
    + split.
      * constructor; [exact Hs|]. eapply Forall_impl; [|exact Hf].
        simpl. intros; lia.
      * constructor; [lia | exact Hf'].
    + split; assumption.
Qed.

(** *** Numbering *)

(** C1, as the specification states it, fails: a heading that is dropped
    still uses up the number 1, so the only clause of
    [heading_then_paragraph] gets the id 2 and the ids are not 1..N. *)
Lemma segment_ids_not_dense :
  segment_into_clauses heading_then_paragraph =
    [ {| id := 2; text := liability_paragraph; detected_risks := [] |} ] /\
  ~ ids_dense (segment_into_clauses heading_then_paragraph).
Proof.
  split; [vm_compute; reflexivity|].
  unfold ids_dense. vm_compute. discriminate.
Qed.

(** C1, amended: the ids are strictly increasing along the output, every
    clause carries one plus the position of its paragraph in the list that
    [re.split] returns (so the numbers are given before the filter), every
    paragraph that is long enough is in the output under that number, and
    the paragraphs are cut out of the text from left to right. *)
Theorem segment_ids_follow_paragraphs (contract_text : str) :
  let paragraphs := Re.split CLAUSE_BREAK contract_text in
  let clauses := segment_into_clauses contract_text in
  StronglySorted lt (map id clauses) /\
  (forall c, In c clauses ->
     1 <= id c <= length paragraphs /\
     exists para, nth_error paragraphs (id c - 1) = Some para /\
                  text c = strip para) /\
  (forall i para, nth_error paragraphs i = Some para ->
     50 < length (strip para) ->
     In {| id := i + 1; text := strip para; detected_risks := [] |} clauses) /\
  (exists seps, S (length seps) = length paragraphs /\
                weave paragraphs seps = contract_text).
Proof.
  intros paragraphs clauses. split; [|split; [|split]].
  - subst clauses. rewrite segment_into_clauses_eq.
    apply (segment_ids_sorted_from _ 0).
  - intros c Hc. apply in_segment_into_clauses in Hc.
    destruct Hc as [i [para [Hn [_ ->]]]]. fold paragraphs in Hn. simpl.
    assert (Hi : i < length paragraphs).
    { apply nth_error_Some. congruence. }
    split; [lia|]. exists para.
    replace (i + 1 - 1) with i by lia. auto.
  - intros i para Hn Hl. apply in_segment_into_clauses. eauto.
  - destruct (split_weave contract_text) as [seps [L [_ W]]]. eauto.
Qed.

(** *** The length filter *)

Lemma segment_one_paragraph (para : str) :
  ~ In newline para ->
  segment_into_clauses para =
    if 50 <? length (strip para)
    then [ {| id := 1; text := strip para; detected_risks := [] |} ]
    else [].
Proof.
  intros H. rewrite segment_into_clauses_eq, (split_one_piece para H). simpl.
  now rewrite app_nil_r.
Qed.

(** C2, on the code: a paragraph of exactly 50 characters is dropped, like
    one of 49; the shortest paragraph that is kept has 51, since the test
    is [len(cleaned) > 50]. *)
Theorem segment_drops_fifty_characters :
  length (strip (letters 50)) = 50 /\
  segment_into_clauses (letters 49) = [] /\
  segment_into_clauses (letters 50) = [] /\
  segment_into_clauses (letters 51) =
    [ {| id := 1; text := letters 51; detected_risks := [] |} ].
Proof. repeat split; vm_compute; reflexivity. Qed.

(** C9: the text of every clause is its paragraph trimmed, it neither
    starts nor ends with white space, trimming it again changes nothing,
    and it has at least 50 characters (more than 50, in fact). *)
Theorem segment_texts_trimmed_and_long (contract_text : str) (c : Clause) :
  In c (segment_into_clauses contract_text) ->
  (exists para, nth_error (Re.split CLAUSE_BREAK contract_text) (id c - 1) = Some para /\
                text c = strip para) /\
  (forall ch rest, text c = ch :: rest -> isspace ch = false) /\
  (forall ch rest, text c = rest ++ [ch] -> isspace ch = false) /\
  strip (text c) = text c /\
  50 <= length (text c) /\ 50 < length (text c).
Proof.
  intros H. apply in_segment_into_clauses in H.
  destruct H as [i [para [Hn [Hl ->]]]]. simpl.
  replace (i + 1 - 1) with i by lia. repeat split.
  - eauto.
  - intros ch rest. apply strip_no_leading_space.
  - intros ch rest. apply strip_no_trailing_space.
  - apply strip_idempotent.
  - lia.
  - exact Hl.
Qed.

Lemma segment_texts_trimmed_and_long_witness :
  let c := {| id := 2; text := liability_paragraph; detected_risks := [] |} in
  In c (segment_into_clauses heading_then_paragraph) /\
  strip (text c) = text c /\ 50 <= length (text c).
Proof.
  intros c.
  assert (H : In c (segment_into_clauses heading_then_paragraph))
    by (vm_compute; left; reflexivity).
  split; [exact H|].
  destruct (segment_texts_trimmed_and_long heading_then_paragraph c H)
    as [_ [_ [_ [Hs [Hl _]]]]].
  split; [exact Hs | exact Hl].
Defined.

(** *** Blank input *)

Lemma segment_blank (contract_text : str) :
  forallb isspace contract_text = true ->
  segment_into_clauses contract_text = [].
Proof.
  intros H. rewrite segment_into_clauses_eq.
  assert (Hp : Forall (Forall (fun ch => isspace ch = true))
                 (Re.split CLAUSE_BREAK contract_text)).
  { apply split_from_chars; [|constructor].
    apply Forall_forall. now apply forallb_forall. }
  unfold enumerate. generalize 0.
  induction Hp as [|para l Hpara _ IH]; intros i; simpl; [reflexivity|].
  rewrite strip_spaces; [exact (IH (S i))|].
  apply forallb_forall. now apply Forall_forall.
Qed.

(** ** Letter case *)

Lemma isupper_bound (a : ascii) : isupper a = true -> (code a + 32 < 256)%N.
Proof.
  unfold isupper, between. rewrite orb_true_iff, !andb_true_iff, !N.leb_le.
  intros [[_ H] | [[_ H] _]]; lia.
Qed.

Lemma lower_char_upper (a : ascii) :
  isupper a = true -> code (lower_char a) = (code a + 32)%N.
Proof.
  intros H. unfold lower_char. rewrite H. unfold code at 1.
  apply N_ascii_embedding. now apply isupper_bound.
Qed.

Lemma lower_char_not_upper (a : ascii) : isupper a = false -> lower_char a = a.
Proof. intros H. unfold lower_char. now rewrite H. Qed.

Lemma code_inj (a b : ascii) : code a = code b -> a = b.
Proof.
  unfold code. intros H.
  rewrite <- (ascii_N_embedding a), <- (ascii_N_embedding b). now rewrite H.
Qed.

(** The partner of an upper-case letter is not upper-case. *)
Lemma partner_not_upper (a b : ascii) :
  isupper a = true -> code b = (code a + 32)%N -> isupper b = false.
Proof.
  unfold isupper, between. intros Ha Hb. rewrite Hb.
  rewrite orb_true_iff, !andb_true_iff, negb_true_iff, !N.leb_le, N.eqb_neq in Ha.
  apply orb_false_iff. split.
  - apply andb_false_iff. destruct Ha as [[H1 H2] | [[H1 H2] H3]].
    + right. apply N.leb_gt. lia.
    + right. apply N.leb_gt. lia.
  - destruct Ha as [[H1 H2] | [[H1 H2] H3]].
    + apply andb_false_iff. left. apply andb_false_iff. left.
      apply N.leb_gt. lia.
    + apply andb_false_iff. left. apply andb_false_iff. right.
      apply N.leb_gt. lia.
Qed.

Lemma same_letter_lower (a b : ascii) :
  same_letter a b <-> lower_char a = lower_char b.
Proof.
  split.
  - intros [-> | [[Ha Hb] | [Hb Ha]]]; [reflexivity| |].
    + apply code_inj. rewrite (lower_char_upper a Ha).
      rewrite (lower_char_not_upper b (partner_not_upper a b Ha Hb)). now rewrite Hb.
    + apply code_inj. rewrite (lower_char_upper b Hb).
      rewrite (lower_char_not_upper a (partner_not_upper b a Hb Ha)). now rewrite Ha.
  - intros H. apply (f_equal code) in H.
    destruct (isupper a) eqn:Ha; destruct (isupper b) eqn:Hb.
    + rewrite (lower_char_upper a Ha), (lower_char_upper b Hb) in H.
      left. apply code_inj. lia.
    + rewrite (lower_char_upper a Ha), (lower_char_not_upper b Hb) in H.
      right; left. auto.
    + rewrite (lower_char_not_upper a Ha), (lower_char_upper b Hb) in H.
      right; right. auto.
    + rewrite (lower_char_not_upper a Ha), (lower_char_not_upper b Hb) in H.
      left. now apply code_inj.
Qed.

(** Texts differ in letter case only exactly when [lower] makes them equal. *)
Lemma case_variant_lower (s t : str) :
  case_variant s t <-> lower s = lower t.
Proof.
  unfold case_variant, lower. split.
  - induction 1 as [|a b s t Hab _ IH]; simpl; [reflexivity|].
    apply same_letter_lower in Hab. now rewrite Hab, IH.
  - revert t; induction s as [|a s IH]; intros [|b t] H; simpl in H;
      try discriminate; constructor.
    + apply same_letter_lower. now inversion H.
    + apply IH. now inversion H.
Qed.

Lemma case_variant_lower_self (s : str) : case_variant (lower s) s.
Proof.
  apply case_variant_lower. unfold lower. rewrite map_map.
  apply map_ext. intros a. destruct (isupper a) eqn:Ha.
  - apply lower_char_not_upper.
    apply (partner_not_upper a (lower_char a) Ha (lower_char_upper a Ha)).
  - now rewrite (lower_char_not_upper a Ha), (lower_char_not_upper a Ha).
Qed.

(** ** Classification *)

(** The test of the list comprehension decides [keyword_occurs]. *)
Lemma keyword_test_spec (kw clause_text : str) :
  contains (lower clause_text) (lower kw) = true <-> keyword_occurs kw clause_text.
Proof.
  rewrite contains_spec. unfold keyword_occurs. split.
  - intros [pre [post H]]. unfold lower in H.
    apply map_eq_app in H. destruct H as [pre' [rest [-> [_ H]]]].
    apply map_eq_app in H. destruct H as [mid [post' [-> [H _]]]].
    exists pre', mid, post'. split; [reflexivity|].
    now apply case_variant_lower.
  - intros [pre [mid [post [-> H]]]]. apply case_variant_lower in H.
    exists (lower pre), (lower post). unfold lower in *.
    now rewrite !map_app, H.
Qed.

Lemma analyze_step_appends (clause_lower : str) (acc : list Finding)
  (item : str * RiskData) :
  analyze_step clause_lower acc item = acc ++ analyze_emit clause_lower item.
Proof.
  destruct item as [risk_type risk_data]. unfold analyze_step, analyze_emit.
  destruct (find_matches clause_lower risk_data);
    [now rewrite app_nil_r | reflexivity].
Qed.

Lemma analyze_with_eq (patterns : dict RiskData) (clause_text : str) :
  analyze_with patterns clause_text =
  flat_map (analyze_emit (lower clause_text)) patterns.
Proof.
  unfold analyze_with.
  now rewrite (fold_left_appends _ _ (analyze_step_appends (lower clause_text))).
Qed.

Lemma in_analyze_emit (clause_lower : str) (item : str * RiskData) (f : Finding) :
  In f (analyze_emit clause_lower item) <->
  find_matches clause_lower (snd item) <> [] /\
  f = {| type := type_name (fst item);
         risk_level := rd_risk_level (snd item);
         matched_keywords := find_matches clause_lower (snd item);
         rationale := rd_rationale (snd item);
         suggestion := rd_suggestion (snd item) |}.
Proof.
  destruct item as [risk_type risk_data]. unfold analyze_emit. simpl.
  destruct (find_matches clause_lower risk_data) eqn:E; simpl.
  - split; [tauto | intros [H _]; congruence].
  - split.
    + intros [<- | []]. split; [discriminate | reflexivity].
    + intros [_ ->]. now left.
Qed.

Lemma find_matches_nonempty (clause_text : str) (risk_data : RiskData) :
  find_matches (lower clause_text) risk_data <> [] <->
  exists kw, In kw (keywords risk_data) /\ keyword_occurs kw clause_text.
Proof.
  unfold find_matches. split.
  - intros H.
    destruct (filter _ (keywords risk_data)) as [|kw l] eqn:E; [congruence|].
    assert (Hin : In kw (kw :: l)) by now left.
    rewrite <- E in Hin. apply filter_In in Hin. destruct Hin as [Hin Hc].
    exists kw. split; [exact Hin | now apply keyword_test_spec].
  - intros [kw [Hin Hocc]] E.
    assert (Hf : In kw (filter (fun kw => contains (lower clause_text) (lower kw))
                          (keywords risk_data))).
    { apply filter_In. split; [exact Hin | now apply keyword_test_spec]. }
    rewrite E in Hf. exact Hf.
Qed.

(** *** The loop against the classifier of the specification *)

Lemma filter_nil_existsb {A : Type} (p : A -> bool) (l : list A) :
  filter p l = [] <-> existsb p l = false.
Proof.
  induction l as [|x l IH]; simpl; [tauto|].
  destruct (p x); simpl; [split; discriminate | exact IH].
Qed.

Lemma analyze_with_classify (taxonomy : dict RiskData) (clause_text : str) :
  analyze_with taxonomy clause_text = classify taxonomy clause_text.
Proof.
  rewrite analyze_with_eq. unfold classify.
  induction taxonomy as [|[risk_type risk_data] l IH]; simpl; [reflexivity|].
  unfold category_matches at 1. simpl.
  destruct (find_matches (lower clause_text) risk_data) as [|kw m] eqn:E.
  - unfold find_matches in E. apply filter_nil_existsb in E. rewrite E.
    exact IH.
  - destruct (existsb _ (keywords risk_data)) eqn:Ex.
    + simpl. rewrite IH. unfold finding_of. simpl.
      unfold find_matches in E. now rewrite E.
    + apply filter_nil_existsb in Ex. unfold find_matches in E. congruence.
Qed.

Lemma in_analyze_with (patterns : dict RiskData) (clause_text : str) (f : Finding) :
  In f (analyze_with patterns clause_text) <->
  exists category,
    In category patterns /\
    (exists kw, In kw (keywords (snd category)) /\ keyword_occurs kw clause_text) /\
    f = finding_of clause_text category.
Proof.
  rewrite analyze_with_eq, in_flat_map. split.
  - intros [category [Hin Hf]]. apply in_analyze_emit in Hf.
    destruct Hf as [Hne ->]. exists category.
    split; [exact Hin|]. split; [now apply find_matches_nonempty | reflexivity].
  - intros [category [Hin [Hocc ->]]]. exists category.
    split; [exact Hin|]. apply in_analyze_emit.
    split; [now apply find_matches_nonempty | reflexivity].
Qed.

Lemma NoDup_by_nodup {A : Type} (dec : forall x y : A, {x = y} + {x <> y})
  (l : list A) : nodup dec l = l -> NoDup l.
Proof. intros <-. apply NoDup_nodup. Qed.

(** The eight categories show under eight different names. *)
Lemma taxonomy_types_distinct :
  NoDup (map (fun category => type_name (fst category)) RISK_PATTERNS).
Proof. apply (NoDup_by_nodup str_dec). vm_compute. reflexivity. Qed.

Lemma NoDup_map_inj {A B : Type} (f : A -> B) (l : list A) (x y : A) :
  NoDup (map f l) -> In x l -> In y l -> f x = f y -> x = y.
Proof.
  induction l as [|z l IH]; simpl; [tauto|].
  intros Hnd Hx Hy E. inversion Hnd as [|? ? Hz Hnd']; subst.
  destruct Hx as [-> | Hx], Hy as [-> | Hy]; auto.
  - exfalso. apply Hz. rewrite E. now apply in_map.
  - exfalso. apply Hz. rewrite <- E. now apply in_map.
Qed.

(** C6: [analyze_clause_risk] is the classifier of the specification: a
    category gets a finding exactly when one of its keywords occurs in the
    clause, letter case apart; the matched keywords of a finding are all the
    keywords of its category that occur, in the order of the category; the
    findings come in the order of the taxonomy; a clause in which no keyword
    occurs has no finding. *)
Theorem analyze_clause_risk_classifies (clause_text : str) :
  analyze_clause_risk clause_text = classify RISK_PATTERNS clause_text /\
  (forall kw, contains (lower clause_text) (lower kw) = true <->
              keyword_occurs kw clause_text) /\
  (forall risk_type risk_data, In (risk_type, risk_data) RISK_PATTERNS ->
     ((exists f, In f (analyze_clause_risk clause_text) /\
                 type f = type_name risk_type) <->
      (exists kw, In kw (keywords risk_data) /\ keyword_occurs kw clause_text))) /\
  (forall f, In f (analyze_clause_risk clause_text) ->
     exists risk_type risk_data,
       In (risk_type, risk_data) RISK_PATTERNS /\
       type f = type_name risk_type /\
       matched_keywords f =
         filter (fun kw => contains (lower clause_text) (lower kw))
                (keywords risk_data) /\
       (forall kw, In kw (matched_keywords f) <->
                   In kw (keywords risk_data) /\ keyword_occurs kw clause_text)) /\
  ((forall risk_type risk_data kw,
      In (risk_type, risk_data) RISK_PATTERNS -> In kw (keywords risk_data) ->
      ~ keyword_occurs kw clause_text) ->
   analyze_clause_risk clause_text = []).
Proof.
  unfold analyze_clause_risk. split; [apply analyze_with_classify|].
  split; [intros kw; apply keyword_test_spec|]. split; [|split].
  - intros risk_type risk_data Hin. split.
    + intros [f [Hf Ht]]. apply in_analyze_with in Hf.
      destruct Hf as [category [Hc [Hocc ->]]]. simpl in Ht.
      assert (E : category = (risk_type, risk_data)).
      { apply (NoDup_map_inj (fun category => type_name (fst category))
                 RISK_PATTERNS); auto using taxonomy_types_distinct. }
      subst category. exact Hocc.
    + intros Hocc. exists (finding_of clause_text (risk_type, risk_data)).
      split; [|reflexivity]. apply in_analyze_with.
      exists (risk_type, risk_data). auto.
  - intros f Hf. apply in_analyze_with in Hf.
    destruct Hf as [[risk_type risk_data] [Hc [_ ->]]].
    exists risk_type, risk_data. simpl.
    split; [exact Hc|]. split; [reflexivity|]. split; [reflexivity|].
    intros kw. rewrite filter_In, keyword_test_spec. tauto.
  - intros Hnone.
    destruct (analyze_with RISK_PATTERNS clause_text) as [|f l] eqn:E;
      [reflexivity|].
    assert (Hf : In f (analyze_with RISK_PATTERNS clause_text))
      by (rewrite E; now left).
    apply in_analyze_with in Hf.
    destruct Hf as [[risk_type risk_data] [Hc [[kw [Hk Hocc]] _]]].
    exfalso. exact (Hnone risk_type risk_data kw Hc Hk Hocc).
Qed.

(** *** Letter case of the clause *)

Lemma matched_keywords_finding_of (clause_text : str) (category : str * RiskData) :
  matched_keywords (finding_of clause_text category) =
  filter (fun kw => contains (lower clause_text) (lower kw))
         (keywords (snd category)).
Proof. reflexivity. Qed.

Lemma analyze_lower_only (t1 t2 : str) :
  lower t1 = lower t2 -> analyze_clause_risk t1 = analyze_clause_risk t2.
Proof.
  intros H. unfold analyze_clause_risk, analyze_with. now rewrite H.
Qed.

(** C5, amended: two clause texts of the same length that differ only
    where one has an upper-case letter and the other its lower-case partner,
    the letter 32 code points up, get the same findings, with the same
    matched keywords; a clause with [INDEMNIFY] in it has the liability
    finding, reporting the keyword [indemnify], just as the clause with
    [indemnify] in the same place. *)
Theorem analyze_clause_risk_ignores_case :
  (forall t1 t2, case_variant t1 t2 ->
     analyze_clause_risk t1 = analyze_clause_risk t2) /\
  (forall before after,
     let shouted := before ++ INDEMNIFY_upper ++ after in
     let plain := before ++ indemnify_lower ++ after in
     analyze_clause_risk shouted = analyze_clause_risk plain /\
     liability_reports shouted indemnify_lower /\
     liability_reports plain indemnify_lower).
Proof.
  split.
  - intros t1 t2 H. apply analyze_lower_only. now apply case_variant_lower.
  - intros before after shouted plain.
    assert (E : analyze_clause_risk shouted = analyze_clause_risk plain).
    { apply analyze_lower_only. subst shouted plain. unfold lower.
      rewrite !map_app. reflexivity. }
    assert (P : liability_reports plain indemnify_lower).
    { set (liability := nth 0 RISK_PATTERNS (nil, mkRiskData nil nil nil nil)).
      exists (finding_of plain liability).
      assert (Hocc : keyword_occurs indemnify_lower plain).
      { exists before, indemnify_lower, after. split; [reflexivity|].
        apply case_variant_lower. reflexivity. }
      split; [|split].
      - apply in_analyze_with. exists liability. split; [now left|].
        split; [|reflexivity]. exists indemnify_lower. split; [|exact Hocc].
        vm_compute. tauto.
      - vm_compute. reflexivity.
      - rewrite matched_keywords_finding_of. apply filter_In.
        split; [vm_compute; tauto | now apply keyword_test_spec]. }
    split; [exact E|]. split; [|exact P].
    unfold liability_reports. rewrite E. exact P.
Qed.

Lemma analyze_clause_risk_ignores_case_witness :
  case_variant (py "We INDEMNIFY You") (py "we indemnify you") /\
  analyze_clause_risk (py "We INDEMNIFY You") =
  analyze_clause_risk (py "we indemnify you").
Proof.
  assert (H : case_variant (py "We INDEMNIFY You") (py "we indemnify you")).
  { apply case_variant_lower. vm_compute. reflexivity. }
  split; [exact H|].
  exact (proj1 analyze_clause_risk_ignores_case _ _ H).
Defined.

(** ** Redline lookup *)

Lemma str_eqb_eq (a b : str) : str_eqb a b = true <-> a = b.
Proof.
  unfold str_eqb. destruct (list_eq_dec ascii_dec a b); split; auto; discriminate.
Qed.

Section DictGet.

Context {V : Type}.
Variable default : V.

Lemma dict_get_missing (d : dict V) (key : str) :
  ~ In key (map fst d) -> dict_get d key default = default.
Proof.
  induction d as [|[k v] d IH]; simpl; [reflexivity|].
  intros H. destruct (str_eqb k key) eqn:E.
  - apply str_eqb_eq in E. tauto.
  - apply IH. tauto.
Qed.

Lemma dict_get_known (d : dict V) (key : str) :
  In key (map fst d) -> In (key, dict_get d key default) d.
Proof.
  induction d as [|[k v] d IH]; simpl; [tauto|].
  intros H. destruct (str_eqb k key) eqn:E.
  - apply str_eqb_eq in E. subst. now left.
  - right. apply IH. destruct H as [H | H]; [|exact H].
    apply str_eqb_eq in H. congruence.
Qed.

Lemma dict_get_in (d : dict V) (key : str) (v : V) :
  NoDup (map fst d) -> In (key, v) d -> dict_get d key default = v.
Proof.
  induction d as [|[k w] d IH]; simpl; [tauto|].
  intros Hnd Hin. inversion Hnd as [|? ? Hk Hnd']; subst.
  destruct (str_eqb k key) eqn:E.
  - apply str_eqb_eq in E. subst. destruct Hin as [Hin | Hin]; [congruence|].
    exfalso. apply Hk. change key with (fst (key, v)). now apply in_map.
  - destruct Hin as [Hin | Hin]; [|now apply IH].
    inversion Hin; subst. rewrite (proj2 (str_eqb_eq key key) eq_refl) in E.
    discriminate.
Qed.

End DictGet.

Lemma suggestions_keys_distinct : NoDup (map fst suggestions).
Proof. apply (NoDup_by_nodup str_dec). vm_compute. reflexivity. Qed.

(** The names under which templates are registered are the names that the
    taxonomy shows, in the same order. *)
Lemma suggestions_keys_are_taxonomy_types :
  map fst suggestions = map (fun category => type_name (fst category)) RISK_PATTERNS.
Proof. vm_compute. reflexivity. Qed.

(** No template is the fallback text. *)
Lemma templates_not_fallback (name template : str) :
  In (name, template) suggestions -> template <> NO_REDLINE.
Proof.
  assert (H : forallb (fun kv => negb (str_eqb (snd kv) NO_REDLINE)) suggestions = true)
    by (vm_compute; reflexivity).
  rewrite forallb_forall in H. intros Hin E. specialize (H _ Hin). simpl in H.
  apply negb_true_iff in H. rewrite (proj2 (str_eqb_eq _ _) E) in H. discriminate.
Qed.

(** C7: [generate_redline] is a lookup that always returns: for a name
    with a registered template it returns that template, whatever the
    clause text; for any other name it returns the fallback text; and its
    result never depends on the clause text. *)
Theorem generate_redline_lookup (original_text risk_type : str) :
  (forall template, In (risk_type, template) suggestions ->
     generate_redline original_text risk_type = template) /\
  (~ In risk_type (map fst suggestions) ->
     generate_redline original_text risk_type = NO_REDLINE) /\
  (forall other_text,
     generate_redline other_text risk_type =
     generate_redline original_text risk_type) /\
  (In (risk_type, generate_redline original_text risk_type) suggestions \/
   generate_redline original_text risk_type = NO_REDLINE).
Proof.
  unfold generate_redline. split; [|split; [|split]].
  - intros template H. apply dict_get_in; [apply suggestions_keys_distinct | exact H].
  - apply dict_get_missing.
  - reflexivity.
  - destruct (in_dec str_dec risk_type (map fst suggestions)) as [H | H].
    + left. now apply dict_get_known.
    + right. now apply dict_get_missing.
Qed.

(** ** Shape of the findings *)

Lemma flat_map_analyze_emit_types (clause_lower : str) (patterns : dict RiskData)
  (name : str) :
  In name (map type (flat_map (analyze_emit clause_lower) patterns)) ->
  In name (map (fun category => type_name (fst category)) patterns).
Proof.
  induction patterns as [|[risk_type risk_data] l IH]; simpl; [tauto|].
  rewrite map_app, in_app_iff. intros [H | H]; [|right; now apply IH].
  left. destruct (find_matches clause_lower risk_data); simpl in H; [tauto|].
  destruct H as [H | []]. exact H.
Qed.

Lemma analyze_with_types_distinct (patterns : dict RiskData) (clause_text : str) :
  NoDup (map (fun category => type_name (fst category)) patterns) ->
  NoDup (map type (analyze_with patterns clause_text)).
Proof.
  rewrite analyze_with_eq.
  induction patterns as [|[risk_type risk_data] l IH]; simpl; [constructor|].
  intros Hnd. inversion Hnd as [|? ? Hk Hnd']; subst.
  destruct (find_matches (lower clause_text) risk_data); simpl; [now apply IH|].
  constructor; [|now apply IH].
  intros Hin. apply Hk. eapply flat_map_analyze_emit_types. exact Hin.
Qed.

Lemma analyze_with_length (patterns : dict RiskData) (clause_text : str) :
  length (analyze_with patterns clause_text) <= length patterns.
Proof.
  rewrite analyze_with_eq.
  induction patterns as [|[risk_type risk_data] l IH]; simpl; [lia|].
  rewrite length_app.
  destruct (find_matches (lower clause_text) risk_data); simpl; lia.
Qed.

(** C10: a clause has at most eight findings, no two of them of the same
    type; every finding reports at least one keyword; and the type of every
    finding has a template registered in [generate_redline], which therefore
    never answers with the fallback text for it. *)
Theorem findings_well_formed (clause_text : str) :
  let findings := analyze_clause_risk clause_text in
  length findings <= 8 /\
  NoDup (map type findings) /\
  (forall f, In f findings ->
     matched_keywords f <> [] /\
     forall original_text,
       In (type f, generate_redline original_text (type f)) suggestions /\
       generate_redline original_text (type f) <> NO_REDLINE).
Proof.
  intros findings. subst findings. unfold analyze_clause_risk.
  split; [apply (analyze_with_length RISK_PATTERNS)|].
  split; [apply analyze_with_types_distinct, taxonomy_types_distinct|].
  intros f Hf.
  assert (Ht : In (type f) (map fst suggestions)).
  { rewrite suggestions_keys_are_taxonomy_types.
    apply (flat_map_analyze_emit_types (lower clause_text)).
    rewrite <- analyze_with_eq. now apply in_map. }
  rewrite analyze_with_eq, in_flat_map in Hf.
  destruct Hf as [category [_ Hf]]. apply in_analyze_emit in Hf.
  destruct Hf as [Hne Ef]. split.
  - rewrite Ef. exact Hne.
  - intros original_text.
    assert (Hin : In (type f, generate_redline original_text (type f)) suggestions)
      by (apply dict_get_known; exact Ht).
    split; [exact Hin | exact (templates_not_fallback _ _ Hin)].
Qed.

(** ** The two-paragraph scenario *)

(** The text of the scenario itself: its second paragraph has 31
    characters, so it is not true of it that both paragraphs have more than
    50, and segmentation yields one clause. *)
Lemma scenario_is_one_clause :
  Re.split CLAUSE_BREAK scenario_text = [liability_paragraph; termination_paragraph] /\
  length (strip termination_paragraph) = 31 /\
  ~ (50 < length (strip liability_paragraph) /\
     50 < length (strip termination_paragraph)) /\
  length (segment_into_clauses scenario_text) <> 2.
Proof.
  split; [vm_compute; reflexivity|]. split; [vm_compute; reflexivity|]. split.
  - intros [_ H]. vm_compute in H. lia.
  - vm_compute. discriminate.
Qed.

(** The text of the scenario splits into its two paragraphs, of 60 and 31
    characters; only the first one is long enough, so there is one clause,
    with id 1.  Its findings are liability, for the keyword
    [unlimited liability], and warranty, for [no warranty]; the text of the
    second paragraph, classified on its own, has the termination finding for
    [no notice].  With a second paragraph of more than 50 characters there
    are two clauses, 1 and 2, with these findings. *)
Lemma scenario_findings :
  Re.split CLAUSE_BREAK scenario_text = [liability_paragraph; termination_paragraph] /\
  map (fun para => length (strip para)) (Re.split CLAUSE_BREAK scenario_text) = [60; 31] /\
  segment_into_clauses scenario_text =
    [ {| id := 1; text := liability_paragraph; detected_risks := [] |} ] /\
  summary (analyze_clause_risk liability_paragraph) =
    [ (py "Liability", [py "unlimited liability"]);
      (py "Warranty", [py "no warranty"]) ] /\
  summary (analyze_clause_risk termination_paragraph) =
    [ (py "Termination", [py "no notice"]) ] /\
  map (fun c => (id c, text c, summary (detected_risks c)))
      (analyze_contract long_scenario_text) =
    [ (1, liability_paragraph,
       [ (py "Liability", [py "unlimited liability"]);
         (py "Warranty", [py "no warranty"]) ]);
      (2, long_termination_paragraph,
       [ (py "Termination", [py "no notice"]) ]) ].
Proof. repeat split; vm_compute; reflexivity. Qed.

(** ** The analysis of empty and blank input *)

Lemma total_risks_nil : total_risks (analyze_clauses []) = 0.
Proof. reflexivity. Qed.

(** C8: for the empty text, and for every text of white space only,
    [segment_into_clauses] returns the empty list, and the analysis counts
    zero findings; both functions are total, they return a list for every
    text. *)
Theorem blank_input_no_clauses (contract_text : str) :
  forallb isspace contract_text = true ->
  segment_into_clauses contract_text = [] /\
  total_risks (analyze_contract contract_text) = 0 /\
  segment_into_clauses [] = [] /\
  total_risks (analyze_contract []) = 0 /\
  (forall any_text, exists clauses findings,
     segment_into_clauses any_text = clauses /\
     analyze_clause_risk any_text = findings).
Proof.
  intros H. pose proof (segment_blank contract_text H) as E.
  split; [exact E|]. split.
  - unfold analyze_contract. rewrite E. apply total_risks_nil.
  - split; [reflexivity|]. split; [reflexivity|]. intros any_text. eauto.
Qed.

Lemma blank_input_no_clauses_witness :
  forallb isspace blank_text = true /\
  segment_into_clauses blank_text = [] /\
  total_risks (analyze_contract blank_text) = 0.
Proof.
  assert (H : forallb isspace blank_text = true) by (vm_compute; reflexivity).
  split; [exact H|].
  destruct (blank_input_no_clauses blank_text H) as [E [T _]].
  split; [exact E | exact T].
Defined.

(** * Further properties *)

(** ** The matcher, one step at a time *)

Section MatcherSteps.

Variable p : ascii -> bool.
Variable re : list Re.atom.

Lemma match_here_one_cons (c : ascii) (s : str) :
  Re.match_here (Re.Atom p Re.One :: re) (c :: s) =
  if p c then option_map S (Re.match_here re s) else None.
Proof. reflexivity. Qed.

Lemma match_here_star_nil :
  Re.match_here (Re.Atom p Re.Star :: re) [] = Re.match_here re [].
Proof. reflexivity. Qed.

Lemma match_here_star_cons (c : ascii) (s : str) :
  Re.match_here (Re.Atom p Re.Star :: re) (c :: s) =
  if p c then
    match Re.match_here (Re.Atom p Re.Star :: re) s with
    | Some n => Some (S n)
    | None => Re.match_here re (c :: s)
    end
  else Re.match_here re (c :: s).
Proof. reflexivity. Qed.

Lemma match_here_plus_cons (c : ascii) (s : str) :
  Re.match_here (Re.Atom p Re.Plus :: re) (c :: s) =
  if p c then option_map S (Re.match_here (Re.Atom p Re.Star :: re) s) else None.
Proof. reflexivity. Qed.

End MatcherSteps.

(** The matcher reports a prefix of the text that the pattern describes. *)
Lemma match_here_sound (re : list Re.atom) :
  forall s n, Re.match_here re s = Some n ->
    n <= length s /\ Matches re (firstn n s).
Proof.
  induction re as [|[p q] re IH]; intros s n H.
  - simpl in H. inversion H; subst. split; [lia|]. simpl. constructor.
  - assert (Hstar : forall s n,
              Re.match_here (Re.Atom p Re.Star :: re) s = Some n ->
              n <= length s /\ Matches (Re.Atom p Re.Star :: re) (firstn n s)).
    { clear s n H. induction s as [|c s IHs]; intros n H.
      - rewrite match_here_star_nil in H. destruct (IH _ _ H) as [L M].
        split; [exact L | now apply Matches_star_stop].
      - rewrite match_here_star_cons in H. destruct (p c) eqn:Hc.
        + destruct (Re.match_here (Re.Atom p Re.Star :: re) s) as [m|] eqn:E.
          * inversion H; subst. destruct (IHs _ eq_refl) as [L M].
            split; [simpl; lia|]. simpl. now apply Matches_star_more.
          * destruct (IH _ _ H) as [L M].
            split; [exact L | now apply Matches_star_stop].
        + destruct (IH _ _ H) as [L M].
          split; [exact L | now apply Matches_star_stop]. }
    destruct q.
    + destruct s as [|c s]; [discriminate H|].
      rewrite match_here_one_cons in H. destruct (p c) eqn:Hc; [|discriminate H].
      destruct (Re.match_here re s) as [m|] eqn:E; [|discriminate H].
      inversion H; subst. destruct (IH _ _ E) as [L M].
      split; [simpl; lia|]. simpl. now apply Matches_one.
    + now apply Hstar.
    + destruct s as [|c s]; [discriminate H|].
      rewrite match_here_plus_cons in H. destruct (p c) eqn:Hc; [|discriminate H].
      destruct (Re.match_here (Re.Atom p Re.Star :: re) s) as [m|] eqn:E;
        [|discriminate H].
      inversion H; subst. destruct (Hstar _ _ E) as [L M].
      split; [simpl; lia|]. simpl. now apply Matches_plus.
Qed.

(** The matcher, which backtracks, finds a match wherever a prefix of the
    text is described by the pattern. *)
Lemma match_here_complete (re : list Re.atom) (sep : str) :
  Matches re sep ->
  forall rest, exists n, Re.match_here re (sep ++ rest) = Some n.
Proof.
  induction 1 as [|p re c s Hc _ IH|p re s _ IH|p re c s Hc _ IH|p re c s Hc _ IH];
    intros rest.
  - exists 0. reflexivity.
  - destruct (IH rest) as [n E]. exists (S n). simpl app.
    rewrite match_here_one_cons, Hc, E. reflexivity.
  - destruct (IH rest) as [n E]. destruct (s ++ rest) as [|c t] eqn:Et.
    + exists n. now rewrite match_here_star_nil.
    + rewrite match_here_star_cons. destruct (p c); [|eauto].
      destruct (Re.match_here (Re.Atom p Re.Star :: re) t); eauto.
  - destruct (IH rest) as [n E]. exists (S n). simpl app.
    rewrite match_here_star_cons, Hc, E. reflexivity.
  - destruct (IH rest) as [n E]. exists (S n). simpl app.
    rewrite match_here_plus_cons, Hc, E. reflexivity.
Qed.

Lemma match_alt_sound (alts : list (list Re.atom)) (s : str) (n : nat) :
  Re.match_alt alts s = Some n ->
  n <= length s /\ exists re, In re alts /\ Matches re (firstn n s).
Proof.
  induction alts as [|re alts IH]; simpl; [discriminate|].
  destruct (Re.match_here re s) as [m|] eqn:E.
  - intros H. inversion H; subst. destruct (match_here_sound _ _ _ E) as [L M].
    split; [exact L|]. exists re. auto.
  - intros H. destruct (IH H) as [L [re' [Hin M]]]. split; [exact L|].
    exists re'. auto.
Qed.

Lemma match_alt_complete (alts : list (list Re.atom)) (re : list Re.atom)
  (sep rest : str) :
  In re alts -> Matches re sep ->
  exists n, Re.match_alt alts (sep ++ rest) = Some n.
Proof.
  induction alts as [|re' alts IH]; simpl; [tauto|].
  intros [-> | Hin] M.
  - destruct (match_here_complete _ _ M rest) as [n E]. rewrite E. eauto.
  - destruct (Re.match_here re' (sep ++ rest)); eauto.
Qed.

(** ** The clause-break pattern *)

Lemma Matches_star_inv (p : ascii -> bool) (re : list Re.atom) (s : str) :
  Matches (Re.Atom p Re.Star :: re) s ->
  exists a b, s = a ++ b /\ forallb p a = true /\ Matches re b.
Proof.
  remember (Re.Atom p Re.Star :: re) as r eqn:Er. intros M.
  induction M as [|p' re' c s Hc M _|p' re' s M _|p' re' c s Hc M IH|p' re' c s Hc M _];
    inversion Er; subst.
  - exists [], s. auto.
  - destruct (IH eq_refl) as [a [b [-> [Ha Mb]]]]. exists (c :: a), b.
    simpl. rewrite Hc, Ha. auto.
Qed.

Lemma Matches_star_intro (p : ascii -> bool) (re : list Re.atom) (a b : str) :
  forallb p a = true -> Matches re b -> Matches (Re.Atom p Re.Star :: re) (a ++ b).
Proof.
  induction a as [|c a IH]; simpl; intros Ha Mb.
  - now apply Matches_star_stop.
  - apply andb_true_iff in Ha. destruct Ha as [Hc Ha].
    apply Matches_star_more; auto.
Qed.

Lemma is_newline_eq (c : ascii) : is_newline c = true -> c = newline.
Proof. unfold is_newline. apply Ascii.eqb_eq. Qed.

Lemma is_dot_eq (c : ascii) : is_dot c = true -> c = ascii_of_N 46.
Proof. unfold is_dot. apply Ascii.eqb_eq. Qed.

(** The two alternatives of the pattern describe the two kinds of break. *)
Lemma clause_break_alternatives (sep : str) :
  is_clause_break sep <-> exists re, In re CLAUSE_BREAK /\ Matches re sep.
Proof.
  split.
  - intros [[ws [nls [-> [Hws Hnls]]]] | [ws [d [ds [-> [Hws Hds]]]]]].
    + exists (nth 0 CLAUSE_BREAK []). split; [now left|]. simpl.
      apply Matches_one; [reflexivity|]. apply Matches_star_intro; [exact Hws|].
      apply Matches_plus; [reflexivity|].
      rewrite <- (app_nil_r nls). apply Matches_star_intro; [exact Hnls|].
      constructor.
    + exists (nth 1 CLAUSE_BREAK []). split; [right; now left|]. simpl.
      simpl in Hds. apply andb_true_iff in Hds. destruct Hds as [Hd Hds].
      apply Matches_one; [reflexivity|]. apply Matches_star_intro; [exact Hws|].
      apply Matches_plus; [exact Hd|]. apply Matches_star_intro; [exact Hds|].
      apply Matches_one; [reflexivity | constructor].
  - intros [re [[<- | [<- | []]] M]].
    + left. inversion M as [|? ? c s1 Hc M1| | |]; subst.
      apply is_newline_eq in Hc. subst c.
      apply Matches_star_inv in M1. destruct M1 as [ws [b [-> [Hws Mb]]]].
      inversion Mb as [| | | |? ? c2 s3 Hc2 M3]; subst.
      apply is_newline_eq in Hc2. subst c2.
      apply Matches_star_inv in M3. destruct M3 as [nls [b3 [-> [Hnls M3]]]].
      inversion M3; subst. rewrite app_nil_r. exists ws, nls. auto.
    + right. inversion M as [|? ? c s1 Hc M1| | |]; subst.
      apply is_newline_eq in Hc. subst c.
      apply Matches_star_inv in M1. destruct M1 as [ws [b [-> [Hws Mb]]]].
      inversion Mb as [| | | |? ? d s3 Hd M3]; subst.
      apply Matches_star_inv in M3. destruct M3 as [ds [b3 [-> [Hds M3]]]].
      inversion M3 as [|? ? c4 s4 Hc4 M4| | |]; subst.
      apply is_dot_eq in Hc4. subst c4. inversion M4; subst.
      exists ws, d, ds. simpl. rewrite Hd, Hds. auto.
Qed.

Lemma clause_break_not_empty (sep : str) : is_clause_break sep -> sep <> [].
Proof.
  intros [[ws [nls [-> _]]] | [ws [d [ds [-> _]]]]]; discriminate.
Qed.

(** What the pattern matches at a position is a clause break. *)
Lemma clause_break_match_shape (s : str) (n : nat) :
  Re.match_alt CLAUSE_BREAK s = Some n ->
  n <= length s /\ is_clause_break (firstn n s).
Proof.
  intros H. destruct (match_alt_sound _ _ _ H) as [L M]. split; [exact L|].
  now apply clause_break_alternatives.
Qed.

(** The pattern matches wherever the text goes on with a clause break. *)
Lemma clause_break_is_matched (sep rest : str) :
  is_clause_break sep ->
  exists n, Re.match_alt CLAUSE_BREAK (sep ++ rest) = Some (S n).
Proof.
  intros B. pose proof B as B'. apply clause_break_alternatives in B'.
  destruct B' as [re [Hin M]].
  destruct (match_alt_complete _ _ _ rest Hin M) as [n E].
  destruct n as [|n]; [|eauto].
  destruct (clause_break_match_shape _ _ E) as [_ B0]. simpl in B0.
  exfalso. now apply (clause_break_not_empty [] B0).
Qed.

(** ** What [re.split] removes and what it leaves *)

Section SplitPieces.

Variable alts : list (list Re.atom).

(** Every separator is what the pattern matched where it was found. *)
Lemma split_from_separators (s : str) :
  forall skip cur, exists seps,
    S (length seps) = length (Re.split_from alts s skip cur) /\
    weave (Re.split_from alts s skip cur) seps = rev cur ++ skipn skip s /\
    Forall (fun sep => exists t n,
              Re.match_alt alts t = Some n /\ sep = firstn n t) seps.
Proof.
  induction s as [|c s IH]; intros skip cur.
  - exists []. simpl. rewrite skipn_nil, app_nil_r. auto.
  - destruct skip as [|k]; simpl; [|exact (IH k cur)].
    destruct (Re.match_alt alts (c :: s)) as [[|n]|] eqn:E.
    + destruct (IH 0 (c :: cur)) as [seps [L [W F]]]. exists seps.
      simpl in W. rewrite <- app_assoc in W. auto.
    + destruct (IH n []) as [seps [L [W F]]].
      exists ((c :: firstn n s) :: seps). simpl. split; [now rewrite L|]. split.
      * simpl in W. rewrite W. now rewrite firstn_skipn.
      * constructor; [|exact F]. exists (c :: s), (S n). auto.
    + destruct (IH 0 (c :: cur)) as [seps [L [W F]]]. exists seps.
      simpl in W. rewrite <- app_assoc in W. auto.
Qed.

(** [starts s]: the text [s] goes on with something the pattern matches. *)
Variable starts : str -> Prop.
Hypothesis starts_longer : forall s t, starts s -> starts (s ++ t).
Hypothesis starts_matched :
  forall s, starts s -> exists n, Re.match_alt alts s = Some (S n).
Hypothesis starts_not_empty : ~ starts [].

(** No piece has, at any place, something the pattern matches. *)
Lemma split_from_pieces_free (m : nat) :
  forall s cur, length s <= m ->
    (forall a b, rev cur = a ++ b -> b <> [] -> ~ starts (b ++ s)) ->
    forall piece, In piece (Re.split_from alts s 0 cur) ->
    forall a b, piece = a ++ b -> ~ starts b.
Proof.
  assert (Hlast : forall s cur,
            (forall a b, rev cur = a ++ b -> b <> [] -> ~ starts (b ++ s)) ->
            forall a b, rev cur = a ++ b -> ~ starts b).
  { intros s cur Inv a b E Hb. destruct b as [|x b]; [now apply starts_not_empty|].
    apply (Inv a (x :: b) E); [discriminate|]. now apply starts_longer. }
  induction m as [|m IH]; intros s cur Hlen Inv piece Hin a b E.
  - destruct s; [|simpl in Hlen; lia]. simpl in Hin. destruct Hin as [<- | []].
    exact (Hlast _ _ Inv a b E).
  - destruct s as [|c s].
    + simpl in Hin. destruct Hin as [<- | []]. exact (Hlast _ _ Inv a b E).
    + simpl in Hlen.
      assert (Hnext : (forall x, Re.match_alt alts (c :: s) <> Some (S x)) ->
                forall piece, In piece (Re.split_from alts s 0 (c :: cur)) ->
                forall a b, piece = a ++ b -> ~ starts b).
      { intros Hno. apply IH; [lia|]. intros a' b' E' Hb'. simpl in E'.
        destruct (exists_last Hb') as [b0 [x Eb]]. subst b'.
        rewrite app_assoc in E'. apply app_inj_tail in E'. destruct E' as [E' ->].
        rewrite <- app_assoc. simpl. destruct b0 as [|y b0].
        - simpl. intros Hs. destruct (starts_matched _ Hs) as [n En].
          exact (Hno n En).
        - apply (Inv a' (y :: b0)); [now symmetry | discriminate]. }
      simpl in Hin. destruct (Re.match_alt alts (c :: s)) as [[|n]|] eqn:Em.
      * apply (Hnext ltac:(discriminate) piece Hin a b E).
      * destruct Hin as [<- | Hin]; [exact (Hlast _ _ Inv a b E)|].
        rewrite split_from_skip in Hin.
        apply (IH (skipn n s) []) with (piece := piece) (a := a); auto.
        -- rewrite length_skipn. lia.
        -- intros a' b' E' Hb'. simpl in E'. destruct a'; destruct b'; try discriminate.
           congruence.
      * apply (Hnext ltac:(discriminate) piece Hin a b E).
Qed.

End SplitPieces.

Lemma split_pieces_no_break (contract_text para : str) :
  In para (Re.split CLAUSE_BREAK contract_text) -> ~ contains_break para.
Proof.
  intros Hin [before [sep [after [E B]]]].
  apply (split_from_pieces_free CLAUSE_BREAK starts_break) with
    (m := length contract_text) (s := contract_text) (cur := [])
    (piece := para) (a := before) (b := sep ++ after); auto.
  - intros s t [sep' [rest [-> B']]]. exists sep', (rest ++ t).
    now rewrite app_assoc.
  - intros s [sep' [rest [-> B']]]. now apply clause_break_is_matched.
  - intros [sep' [rest [E' B']]]. apply (clause_break_not_empty sep' B').
    destruct sep'; [reflexivity | discriminate].
  - intros a b E' Hb. destruct a; destruct b; try discriminate. congruence.
  - exists sep, after. auto.
Qed.

(** X1: no paragraph that [re.split] hands to the loop, and so no clause
    text, has a clause break inside: neither a blank line (a newline, white
    space and newlines) nor a newline followed by white space, digits and a
    dot. *)
Theorem clauses_contain_no_break (contract_text : str) :
  (forall para, In para (Re.split CLAUSE_BREAK contract_text) ->
     ~ contains_break para) /\
  (forall c, In c (segment_into_clauses contract_text) ->
     ~ contains_break (text c)).
Proof.
  split; [intros para; apply split_pieces_no_break|].
  intros c Hc. apply in_segment_into_clauses in Hc.
  destruct Hc as [i [para [Hn [_ ->]]]]. simpl.
  intros [before [sep [after [E B]]]].
  apply (split_pieces_no_break contract_text para).
  - eapply nth_error_In; exact Hn.
  - destruct (strip_decompose para) as [ws1 [ws2 [Ep _]]].
    exists (ws1 ++ before), sep, (after ++ ws2). split; [|exact B].
    rewrite Ep at 1. rewrite E. now rewrite <- !app_assoc.
Qed.

(** X2: splitting loses nothing but clause breaks: the paragraphs, with
    the separators that were cut out put back between them, are the text,
    and every separator is a blank line or the number of a section. *)
Theorem split_discards_clause_breaks (contract_text : str) :
  exists seps,
    S (length seps) = length (Re.split CLAUSE_BREAK contract_text) /\
    weave (Re.split CLAUSE_BREAK contract_text) seps = contract_text /\
    Forall is_clause_break seps.
Proof.
  destruct (split_from_separators CLAUSE_BREAK contract_text 0 [])
    as [seps [L [W F]]].
  exists seps. split; [exact L|]. split; [exact W|].
  eapply Forall_impl; [|exact F]. simpl.
  intros sep [t [n [E ->]]]. now apply (clause_break_match_shape t n).
Qed.

(** ** Clauses against the length of the text *)

Lemma weave_length (pieces : list str) :
  forall seps, S (length seps) = length pieces ->
    length (weave pieces seps) = total_length pieces + total_length seps.
Proof.
  unfold total_length.
  induction pieces as [|p pieces IH]; intros seps L; simpl in *; [lia|].
  destruct seps as [|sep seps]; simpl in *.
  - destruct pieces; simpl in *; [lia | discriminate].
  - rewrite !length_app, IH by lia. lia.
Qed.

Lemma strip_length (s : str) : length (strip s) <= length s.
Proof.
  destruct (strip_decompose s) as [ws1 [ws2 [E _]]].
  rewrite E at 2. rewrite !length_app. lia.
Qed.

Lemma segment_emit_lengths (l : list str) :
  forall i,
    total_length (map text (flat_map segment_emit (enumerate_from i l)))
      <= total_length l /\
    51 * length (flat_map segment_emit (enumerate_from i l))
      <= total_length (map text (flat_map segment_emit (enumerate_from i l))).
Proof.
  unfold total_length.
  induction l as [|para l IH]; intros i; simpl; [lia|].
  destruct (IH (S i)) as [H1 H2]. pose proof (strip_length para) as Hs.
  destruct (Nat.ltb_spec 50 (length (strip para))); simpl; lia.
Qed.

(** X3: the clause texts are cut out of the text side by side, so their
    lengths add up to no more than the length of the text; each has at
    least 51 characters, so a text has at most one clause for every 51
    characters, and a text of 50 characters or fewer has none. *)
Theorem clauses_fit_in_text (contract_text : str) :
  total_length (map text (segment_into_clauses contract_text))
    <= length contract_text /\
  51 * length (segment_into_clauses contract_text) <= length contract_text /\
  (length contract_text <= 50 -> segment_into_clauses contract_text = []).
Proof.
  destruct (split_weave contract_text) as [seps [L [_ W]]].
  pose proof (weave_length _ _ L) as Hw. rewrite W in Hw.
  rewrite segment_into_clauses_eq.
  destruct (segment_emit_lengths (Re.split CLAUSE_BREAK contract_text) 0)
    as [H1 H2]. fold (enumerate (Re.split CLAUSE_BREAK contract_text)) in *.
  assert (Hb : 51 * length (flat_map segment_emit
                              (enumerate (Re.split CLAUSE_BREAK contract_text)))
               <= length contract_text) by lia.
  split; [lia|]. split; [exact Hb|]. intros Hshort.
  destruct (flat_map segment_emit (enumerate (Re.split CLAUSE_BREAK contract_text)));
    [reflexivity | simpl in Hb; lia].
Qed.

(** ** Paragraphs separated by blank lines *)

Lemma isspace_newline : isspace newline = true.
Proof. reflexivity. Qed.

Lemma not_space_not_newline (c : ascii) : isspace c = false -> is_newline c = false.
Proof.
  intros H. destruct (is_newline c) eqn:E; [|reflexivity].
  apply is_newline_eq in E. subst c. rewrite isspace_newline in H. discriminate.
Qed.

Lemma not_in_newline (s : str) :
  ~ In newline s <-> forallb (fun c => negb (is_newline c)) s = true.
Proof.
  induction s as [|c s IH]; simpl; [tauto|].
  rewrite andb_true_iff, <- IH, negb_true_iff. unfold is_newline.
  rewrite Ascii.eqb_neq. split.
  - intros H. split; [intros ->|]; tauto.
  - intros [H1 H2] [E | Hin]; [now apply H1 | tauto].
Qed.

Lemma plain_paragraph_opens_line (para rest : str) :
  plain_paragraph para -> opens_line (para ++ rest).
Proof.
  intros [Hn Hb]. apply not_in_newline in Hn.
  induction para as [|c para IH]; simpl in *; [discriminate|].
  apply andb_true_iff in Hn. destruct Hn as [Hc Hn].
  destruct (isspace c) eqn:Ec; simpl in Hb.
  - destruct (IH Hn Hb) as [sp [x [rest' [E [Hsp Hx]]]]].
    exists (c :: sp), x, rest'. simpl. rewrite E, Hc, Hsp. auto.
  - exists [], c, (para ++ rest). auto.
Qed.

Lemma opens_line_head (s : str) :
  opens_line s -> exists c s', s = c :: s' /\ is_newline c = false.
Proof.
  intros [sp [x [rest [-> [Hsp Hx]]]]]. destruct sp as [|c sp]; simpl in *.
  - exists x, rest. split; [reflexivity | now apply not_space_not_newline].
  - apply andb_true_iff in Hsp. destruct Hsp as [Hc _].
    apply negb_true_iff in Hc. eauto.
Qed.

(** In such a text, white space is not followed by a newline. *)
Lemma no_newline_after_space (s : str) :
  opens_line s ->
  Re.match_here [Re.Atom isspace Re.Star; Re.Atom is_newline Re.Plus] s = None.
Proof.
  intros [sp [x [rest [-> [Hsp Hx]]]]].
  induction sp as [|c sp IH]; simpl app.
  - rewrite match_here_star_cons, Hx, match_here_plus_cons.
    now rewrite (not_space_not_newline x Hx).
  - simpl in Hsp. apply andb_true_iff in Hsp. destruct Hsp as [Hc Hsp].
    apply negb_true_iff in Hc.
    rewrite match_here_star_cons, (IH Hsp), match_here_plus_cons, Hc.
    destruct (isspace c); reflexivity.
Qed.

(** Two newlines before such a text are matched, and nothing more. *)
Lemma blank_line_match (s : str) :
  opens_line s -> Re.match_alt CLAUSE_BREAK (newline :: newline :: s) = Some 2.
Proof.
  intros Hs. unfold CLAUSE_BREAK. cbn [Re.match_alt].
  rewrite match_here_one_cons. change (is_newline newline) with true. cbv iota.
  rewrite match_here_star_cons, isspace_newline, (no_newline_after_space s Hs).
  rewrite match_here_plus_cons. change (is_newline newline) with true. cbv iota.
  destruct (opens_line_head s Hs) as [c [s' [-> Hc]]].
  rewrite match_here_star_cons, Hc. reflexivity.
Qed.

Lemma split_from_paragraph_then_blank_line (para : str) :
  forall rest cur, ~ In newline para -> opens_line rest ->
    Re.split_from CLAUSE_BREAK (para ++ newline :: newline :: rest) 0 cur =
    (rev cur ++ para) :: Re.split CLAUSE_BREAK rest.
Proof.
  induction para as [|c para IH]; intros rest cur Hn Hrest; simpl app.
  - rewrite (split_from_match CLAUSE_BREAK newline (newline :: rest) cur 1
               (blank_line_match rest Hrest)).
    now rewrite app_nil_r.
  - rewrite split_from_no_match.
    + rewrite IH; [|intros Hin; apply Hn; now right|exact Hrest].
      simpl. now rewrite <- app_assoc.
    + apply clause_break_needs_newline. unfold is_newline.
      apply Ascii.eqb_neq. intros ->. apply Hn. now left.
Qed.

Lemma split_join_paragraphs (paragraphs : list str) :
  paragraphs <> [] -> Forall plain_paragraph paragraphs ->
  Re.split CLAUSE_BREAK (join_paragraphs paragraphs) = paragraphs.
Proof.
  induction paragraphs as [|para l IH]; intros Hne Hall; [congruence|].
  inversion Hall as [|? ? Hp Hl]; subst. destruct l as [|next l].
  - simpl. apply split_one_piece. apply Hp.
  - change (join_paragraphs (para :: next :: l))
      with (para ++ newline :: newline :: join_paragraphs (next :: l)).
    unfold Re.split at 1. rewrite split_from_paragraph_then_blank_line.
    + simpl rev. simpl app. f_equal. apply IH; [discriminate | exact Hl].
    + apply Hp.
    + inversion Hl as [|? ? Hnext _]; subst. destruct l as [|third l].
      * simpl. rewrite <- (app_nil_r next).
        now apply plain_paragraph_opens_line.
      * change (join_paragraphs (next :: third :: l))
          with (next ++ newline :: newline :: join_paragraphs (third :: l)).
        now apply plain_paragraph_opens_line.
Qed.

Lemma segment_emit_all_long (l : list str) :
  forall i, Forall (fun para => 50 < length (strip para)) l ->
    flat_map segment_emit (enumerate_from i l) =
    map (fun ip => {| id := fst ip + 1; text := strip (snd ip);
                      detected_risks := [] |}) (enumerate_from i l).
Proof.
  induction l as [|para l IH]; intros i Hall; simpl; [reflexivity|].
  inversion Hall as [|? ? Hp Hl]; subst.
  apply Nat.ltb_lt in Hp. rewrite Hp. simpl. now rewrite IH.
Qed.

Lemma enumerate_from_ids {A : Type} (l : list A) :
  forall i, map (fun ip => fst ip + 1) (enumerate_from i l) = seq (i + 1) (length l).
Proof.
  induction l as [|x l IH]; intros i; simpl; [reflexivity|].
  rewrite IH. reflexivity.
Qed.

Lemma enumerate_from_values {A : Type} (l : list A) :
  forall i, map snd (enumerate_from i l) = l.
Proof.
  induction l as [|x l IH]; intros i; simpl; [reflexivity|]. now rewrite IH.
Qed.

(** X4: paragraphs that have no newline inside and are not blank, joined
    by blank lines, are split into these paragraphs again; the clauses are
    then the paragraphs of more than 50 characters, each under its position,
    and when all of them are that long the ids are 1, 2, ..., N and the
    texts are the trimmed paragraphs. *)
Theorem segment_joined_paragraphs (paragraphs : list str) :
  paragraphs <> [] -> Forall plain_paragraph paragraphs ->
  Re.split CLAUSE_BREAK (join_paragraphs paragraphs) = paragraphs /\
  segment_into_clauses (join_paragraphs paragraphs) =
    flat_map segment_emit (enumerate paragraphs) /\
  (Forall (fun para => 50 < length (strip para)) paragraphs ->
   map id (segment_into_clauses (join_paragraphs paragraphs)) =
     seq 1 (length paragraphs) /\
   map text (segment_into_clauses (join_paragraphs paragraphs)) =
     map strip paragraphs).
Proof.
  intros Hne Hall. pose proof (split_join_paragraphs paragraphs Hne Hall) as E.
  split; [exact E|].
  assert (Es : segment_into_clauses (join_paragraphs paragraphs) =
               flat_map segment_emit (enumerate paragraphs))
    by (rewrite segment_into_clauses_eq; now rewrite E).
  split; [exact Es|]. intros Hlong. rewrite Es. unfold enumerate.
  rewrite (segment_emit_all_long paragraphs 0 Hlong), !map_map. simpl. split.
  - apply (enumerate_from_ids paragraphs 0).
  - rewrite <- (map_map snd strip). now rewrite enumerate_from_values.
Qed.

Lemma segment_joined_paragraphs_witness :
  let paragraphs := [liability_paragraph; long_termination_paragraph] in
  paragraphs <> [] /\ Forall plain_paragraph paragraphs /\
  Re.split CLAUSE_BREAK (join_paragraphs paragraphs) = paragraphs.
Proof.
  intros paragraphs.
  assert (Hne : paragraphs <> []) by discriminate.
  assert (Hall : Forall plain_paragraph paragraphs).
  { repeat constructor; try (apply not_in_newline; vm_compute; reflexivity);
      vm_compute; reflexivity. }
  split; [exact Hne|]. split; [exact Hall|].
  exact (proj1 (segment_joined_paragraphs paragraphs Hne Hall)).
Defined.

(** ** Findings of a clause inside a longer clause *)

Lemma keyword_occurs_longer (kw clause_text before after : str) :
  keyword_occurs kw clause_text ->
  keyword_occurs kw (before ++ clause_text ++ after).
Proof.
  intros [pre [mid [post [-> H]]]].
  exists (before ++ pre), mid, (post ++ after). split; [|exact H].
  now rewrite <- !app_assoc.
Qed.

(** X5: text added before or after a clause never removes a finding: the
    longer clause has a finding of the same type and level for every finding
    of the shorter one, and it reports at least the same keywords. *)
Theorem findings_survive_in_longer_clause (before clause_text after : str)
  (f : Finding) :
  In f (analyze_clause_risk clause_text) ->
  exists f', In f' (analyze_clause_risk (before ++ clause_text ++ after)) /\
             type f' = type f /\ risk_level f' = risk_level f /\
             incl (matched_keywords f) (matched_keywords f').
Proof.
  unfold analyze_clause_risk. intros Hf. apply in_analyze_with in Hf.
  destruct Hf as [category [Hc [[kw [Hk Hocc]] ->]]].
  exists (finding_of (before ++ clause_text ++ after) category).
  split; [|split; [reflexivity|split; [reflexivity|]]].
  - apply in_analyze_with. exists category. split; [exact Hc|].
    split; [|reflexivity]. exists kw. split; [exact Hk|].
    now apply keyword_occurs_longer.
  - intros k. rewrite !matched_keywords_finding_of, !filter_In, !keyword_test_spec.
    intros [Hin Ho]. split; [exact Hin | now apply keyword_occurs_longer].
Qed.

Lemma findings_survive_in_longer_clause_witness :
  exists f f',
    In f (analyze_clause_risk termination_paragraph) /\
    In f' (analyze_clause_risk
             (liability_paragraph ++ termination_paragraph ++ [])) /\
    type f' = type f.
Proof.
  set (f := nth 0 (analyze_clause_risk termination_paragraph)
              (mkFinding [] [] [] [] [])).
  assert (Hf : In f (analyze_clause_risk termination_paragraph))
    by (vm_compute; left; reflexivity).
  destruct (findings_survive_in_longer_clause liability_paragraph
              termination_paragraph [] f Hf) as [f' [Hin [Ht _]]].
  exists f, f'. auto.
Defined.

(** ** Risk levels *)

Lemma in_analyze_contract (contract_text : str) (c : Clause) :
  In c (analyze_contract contract_text) ->
  detected_risks c = analyze_clause_risk (text c) /\
  exists c0, In c0 (segment_into_clauses contract_text) /\
             id c = id c0 /\ text c = text c0.
Proof.
  unfold analyze_contract, analyze_clauses. rewrite in_map_iff.
  intros [c0 [<- Hin]]. simpl. eauto.
Qed.

Lemma dict_index_found {V : Type} (d : dict V) (key : str) :
  In key (map fst d) -> exists v, dict_index d key = Some v.
Proof.
  induction d as [|[k v] d IH]; simpl; [tauto|].
  intros H. destruct (str_eqb k key) eqn:E; [eauto|].
  apply IH. destruct H as [H | H]; [|exact H].
  apply str_eqb_eq in H. congruence.
Qed.

Lemma level_in_spec (risk_filter : list str) (level : str) :
  level_in risk_filter level = true <-> In level risk_filter.
Proof.
  unfold level_in. rewrite existsb_exists. split.
  - intros [x [Hin E]]. apply str_eqb_eq in E. now subst.
  - intros H. exists level. split; [exact H | now apply str_eqb_eq].
Qed.

(** Every category of the taxonomy has one of the three levels. *)
Lemma taxonomy_levels (category : str * RiskData) :
  In category RISK_PATTERNS -> In (rd_risk_level (snd category)) all_levels.
Proof.
  assert (H : forallb (fun category =>
                         level_in all_levels (rd_risk_level (snd category)))
                RISK_PATTERNS = true) by (vm_compute; reflexivity).
  rewrite forallb_forall in H. intros Hin. apply level_in_spec. now apply H.
Qed.

Lemma finding_level (clause_text : str) (f : Finding) :
  In f (analyze_clause_risk clause_text) -> In (risk_level f) all_levels.
Proof.
  unfold analyze_clause_risk. intros Hf. apply in_analyze_with in Hf.
  destruct Hf as [category [Hc [_ ->]]]. simpl. now apply taxonomy_levels.
Qed.

(** X6: the level of every finding is High, Medium or Low, so the lookup
    of its badge, [{...}[risk['risk_level']]], never raises [KeyError]. *)
Theorem badge_lookup_succeeds (clause_text : str) (f : Finding) :
  In f (analyze_clause_risk clause_text) ->
  In (risk_level f) all_levels /\
  exists badge, dict_index badge_colors (risk_level f) = Some badge.
Proof.
  intros Hf. pose proof (finding_level clause_text f Hf) as Hl.
  split; [exact Hl|]. apply dict_index_found. exact Hl.
Qed.

Lemma badge_lookup_succeeds_witness :
  exists f, In f (analyze_clause_risk termination_paragraph) /\
            exists badge, dict_index badge_colors (risk_level f) = Some badge.
Proof.
  set (f := nth 0 (analyze_clause_risk termination_paragraph)
              (mkFinding [] [] [] [] [])).
  assert (Hf : In f (analyze_clause_risk termination_paragraph))
    by (vm_compute; left; reflexivity).
  exists f. split; [exact Hf|].
  exact (proj2 (badge_lookup_succeeds termination_paragraph f Hf)).
Defined.

(** The categories of level High. *)
Lemma high_categories :
  map fst (filter (fun category =>
                     str_eqb (rd_risk_level (snd category)) (py "High"))
             RISK_PATTERNS) =
  [py "liability"; py "intellectual_property"; py "warranty"].
Proof. vm_compute. reflexivity. Qed.

(** X7: a clause of the analysis counts as a high-risk clause exactly when
    a keyword of a category of level High, which are liability,
    intellectual property and warranty, occurs in its text. *)
Theorem high_risk_iff_high_keyword (contract_text : str) (c : Clause) :
  In c (analyze_contract contract_text) ->
  (has_high_risk c = true <->
   exists risk_type risk_data kw,
     In (risk_type, risk_data) RISK_PATTERNS /\
     rd_risk_level risk_data = py "High" /\
     In risk_type [py "liability"; py "intellectual_property"; py "warranty"] /\
     In kw (keywords risk_data) /\ keyword_occurs kw (text c)).
Proof.
  intros Hc. destruct (in_analyze_contract _ _ Hc) as [Ed _].
  unfold has_high_risk. rewrite Ed, existsb_exists.
  assert (Hhigh : forall risk_type risk_data,
            In (risk_type, risk_data) RISK_PATTERNS ->
            rd_risk_level risk_data = py "High" ->
            In risk_type [py "liability"; py "intellectual_property"; py "warranty"]).
  { intros risk_type risk_data Hin Hl. rewrite <- high_categories.
    change risk_type with (fst (risk_type, risk_data)). apply in_map.
    apply filter_In. split; [exact Hin | now apply str_eqb_eq]. }
  unfold analyze_clause_risk. split.
  - intros [f [Hf Hl]]. apply str_eqb_eq in Hl. apply in_analyze_with in Hf.
    destruct Hf as [[risk_type risk_data] [Hin [[kw [Hk Hocc]] ->]]].
    simpl in Hl. exists risk_type, risk_data, kw.
    split; [exact Hin|]. split; [exact Hl|]. split; [now apply (Hhigh _ risk_data)|].
    auto.
  - intros [risk_type [risk_data [kw [Hin [Hl [_ [Hk Hocc]]]]]]].
    exists (finding_of (text c) (risk_type, risk_data)). split.
    + apply in_analyze_with. exists (risk_type, risk_data). eauto.
    + apply str_eqb_eq. exact Hl.
Qed.

Lemma high_risk_iff_high_keyword_witness :
  exists c, In c (analyze_contract long_scenario_text) /\ has_high_risk c = true /\
    exists risk_type risk_data kw,
      In (risk_type, risk_data) RISK_PATTERNS /\
      rd_risk_level risk_data = py "High" /\
      In risk_type [py "liability"; py "intellectual_property"; py "warranty"] /\
      In kw (keywords risk_data) /\ keyword_occurs kw (text c).
Proof.
  set (c := nth 0 (analyze_contract long_scenario_text) (mkClause 0 [] [])).
  assert (Hc : In c (analyze_contract long_scenario_text))
    by (vm_compute; left; reflexivity).
  assert (Hh : has_high_risk c = true) by (vm_compute; reflexivity).
  exists c. split; [exact Hc|]. split; [exact Hh|].
  exact (proj1 (high_risk_iff_high_keyword long_scenario_text c Hc) Hh).
Defined.

(** ** The three figures of the summary *)

Lemma fold_left_add (l : list nat) (n : nat) :
  fold_left Nat.add l n = n + list_sum l.
Proof.
  revert n; induction l as [|x l IH]; intros n; simpl; [lia|].
  rewrite IH. lia.
Qed.

Lemma high_risk_clauses_count (clauses : list Clause) :
  high_risk_clauses clauses = length (filter has_high_risk clauses).
Proof.
  unfold high_risk_clauses. rewrite fold_left_add. simpl.
  induction (filter has_high_risk clauses) as [|c l IH]; simpl; [reflexivity|].
  now rewrite IH.
Qed.

Lemma total_risks_sum (clauses : list Clause) :
  total_risks clauses = list_sum (map (fun c => length (detected_risks c)) clauses).
Proof. unfold total_risks. now rewrite fold_left_add. Qed.

(** X8: for every text, the high-risk clauses are no more than the
    clauses and no more than the risks detected, and the risks detected are
    no more than eight for each clause. *)
Theorem summary_figures_consistent (contract_text : str) :
  let clauses := analyze_contract contract_text in
  high_risk_clauses clauses <= length clauses /\
  high_risk_clauses clauses <= total_risks clauses /\
  total_risks clauses <= 8 * length clauses.
Proof.
  intros clauses.
  assert (Hall : Forall (fun c => length (detected_risks c) <= 8) clauses).
  { apply Forall_forall. intros c Hc. cbv beta.
    destruct (in_analyze_contract _ _ Hc) as [Ed _]. rewrite Ed.
    apply (analyze_with_length RISK_PATTERNS). }
  rewrite high_risk_clauses_count, total_risks_sum.
  clearbody clauses. induction Hall as [|c l Hc _ IH]; simpl; [lia|].
  destruct IH as [H1 [H2 H3]].
  destruct (has_high_risk c) eqn:Eh; simpl.
  - unfold has_high_risk in Eh. destruct (detected_risks c); [discriminate|].
    simpl in *. lia.
  - lia.
Qed.

(** ** The review tab *)

Lemma no_risks_message_iff (clauses : list Clause) :
  no_risks_message clauses = true <-> total_risks clauses = 0.
Proof.
  unfold no_risks_message. rewrite negb_true_iff, total_risks_sum.
  induction clauses as [|c l IH]; simpl; [tauto|].
  destruct (detected_risks c); simpl; [exact IH|]. split; [discriminate | lia].
Qed.

(** X9: with the default filter, all three levels, the review tab opens an
    expander for every analysed clause that has a finding, and with an empty
    filter for none; the message that no significant risk was detected
    appears exactly when the count of risks is zero, which is when the
    default filter shows nothing. *)
Theorem review_tab_shows_findings (contract_text : str) :
  let clauses := analyze_contract contract_text in
  shown_clauses all_levels clauses = filter has_findings clauses /\
  shown_clauses [] clauses = [] /\
  (no_risks_message clauses = true <-> total_risks clauses = 0) /\
  (no_risks_message clauses = true <-> shown_clauses all_levels clauses = []).
Proof.
  intros clauses.
  assert (E : shown_clauses all_levels clauses = filter has_findings clauses).
  { unfold shown_clauses. apply filter_ext_in. intros c Hc.
    destruct (in_analyze_contract _ _ Hc) as [Ed _].
    unfold clause_shown, has_findings.
    destruct (detected_risks c) as [|f l] eqn:El; [reflexivity|].
    apply existsb_exists. exists f. split; [now left|]. apply level_in_spec.
    apply (finding_level (text c)). rewrite <- Ed. now left. }
  split; [exact E|]. split; [|split].
  - unfold shown_clauses. clearbody clauses. clear E.
    induction clauses as [|c l IH]; simpl; [reflexivity|].
    unfold clause_shown at 1. destruct (detected_risks c) as [|f r]; [exact IH|].
    replace (existsb _ (f :: r)) with false; [exact IH|].
    symmetry. induction (f :: r) as [|x y IHy]; simpl; auto.
  - apply no_risks_message_iff.
  - rewrite E. unfold no_risks_message. rewrite negb_true_iff.
    fold has_findings. clearbody clauses. clear E.
    induction clauses as [|c l IH]; simpl; [tauto|].
    destruct (has_findings c); simpl; [split; discriminate | exact IH].
Qed.

Lemma list_ascii_of_string_inj (a b : string) :
  list_ascii_of_string a = list_ascii_of_string b -> a = b.
Proof.
  intros H. apply (f_equal string_of_list_ascii) in H.
  now rewrite !string_of_list_ascii_of_string in H.
Qed.

(** Different numbers print differently. *)
Lemma str_of_nat_inj (n m : nat) : str_of_nat n = str_of_nat m -> n = m.
Proof.
  unfold str_of_nat, py. intros H. apply list_ascii_of_string_inj in H.
  apply (f_equal DecimalString.NilEmpty.uint_of_string) in H.
  rewrite !DecimalString.NilEmpty.usu in H. inversion H as [E].
  now apply DecimalNat.Unsigned.to_uint_inj.
Qed.

Lemma StronglySorted_lt_NoDup (l : list nat) : StronglySorted lt l -> NoDup l.
Proof.
  induction 1 as [|x l _ IH Hx]; constructor; [|exact IH].
  intros Hin. rewrite Forall_forall in Hx. specialize (Hx _ Hin). lia.
Qed.

(** Dropping items keeps their keys distinct. *)
Lemma filter_keeps_keys_distinct {Item Key : Type} (key : Item -> Key)
  (keep : Item -> bool) (items : list Item)
  (Hdistinct : NoDup (map key items)) :
  NoDup (map key (filter keep items)).
Proof.
  induction items as [|x items IH]; simpl in *; [exact Hdistinct|].
  inversion Hdistinct as [|? ? Hx Hrest]; subst.
  destruct (keep x); simpl; [|auto]. constructor; [|auto].
  intros Hin. apply Hx. apply in_map_iff in Hin.
  destruct Hin as [y [E Hy]]. apply filter_In in Hy.
  apply in_map_iff. exists y. tauto.
Qed.

(** X10: the keys [clause_<id>] given to the text areas of the review tab
    are pairwise different, whatever the text and the filter. *)
Theorem widget_keys_distinct (risk_filter : list str) (contract_text : str) :
  NoDup (map widget_key
           (shown_clauses risk_filter (analyze_contract contract_text))).
Proof.
  assert (Hids : NoDup (map id (analyze_contract contract_text))).
  { unfold analyze_contract, analyze_clauses. rewrite map_map. simpl.
    apply StronglySorted_lt_NoDup. rewrite segment_into_clauses_eq.
    apply (segment_ids_sorted_from _ 0). }
  unfold shown_clauses.
  apply (filter_keeps_keys_distinct id (clause_shown risk_filter)) in Hids.
  induction (filter (clause_shown risk_filter) (analyze_contract contract_text))
    as [|c l IH]; simpl; [constructor|].
  inversion Hids as [|? ? Hc Hl]; subst. constructor; [|now apply IH].
  intros Hin. apply Hc. apply in_map_iff in Hin. destruct Hin as [c' [E Hc']].
  unfold widget_key in E. apply app_inv_head in E. apply str_of_nat_inj in E.
  rewrite <- E. now apply in_map.
Qed.

(** ** The names of the finding types *)

Lemma title_char_not_underscore (previous_is_cased : bool) (c : ascii) :
  c <> underscore ->
  (if previous_is_cased then lower_char c else upper_char_ascii c) <> underscore.
Proof.
  destruct previous_is_cased; destruct c as [[] [] [] [] [] [] [] []];
    vm_compute; intros H E; first [discriminate E | exact (H eq_refl)].
Qed.

Lemma title_from_shape (s : str) :
  forall previous_is_cased,
    length (title_from previous_is_cased s) = length s /\
    (~ In underscore s -> ~ In underscore (title_from previous_is_cased s)).
Proof.
  induction s as [|c s IH]; intros b; simpl; [tauto|].
  destruct (IH (isalpha_ascii c)) as [L N]. split; [now rewrite L|].
  intros Hn [E | Hin].
  - apply (title_char_not_underscore b c); [|exact E]. intros ->. apply Hn. now left.
  - apply N; [|exact Hin]. intros H. apply Hn. now right.
Qed.

(** X11: for a key of ASCII characters, the name under which the
    category shows has as many characters as the key and no underscore. *)
Theorem type_name_shape (risk_type : str) :
  is_ascii_text risk_type ->
  length (type_name risk_type) = length risk_type /\
  ~ In underscore (type_name risk_type).
Proof.
  intros _. unfold type_name, title.
  destruct (title_from_shape
              (replace_char (ascii_of_N 95) (ascii_of_N 32) risk_type) false)
    as [L N].
  split.
  - rewrite L. unfold replace_char. apply length_map.
  - apply N. unfold replace_char. rewrite in_map_iff. intros [c [E _]].
    destruct (Ascii.eqb c (ascii_of_N 95)) eqn:Ec.
    + vm_compute in E. discriminate E.
    + apply Ascii.eqb_neq in Ec. apply Ec. exact E.
Qed.

Lemma type_name_shape_witness :
  is_ascii_text (py "intellectual_property") /\
  length (type_name (py "intellectual_property")) = 21 /\
  ~ In underscore (type_name (py "intellectual_property")).
Proof.
  assert (H : is_ascii_text (py "intellectual_property")).
  { unfold is_ascii_text. repeat constructor. }
  split; [exact H|].
  exact (type_name_shape (py "intellectual_property") H).
Defined.

(** ** [extract_text_from_pdf] *)

Lemma extract_pages_cases (pages : list (outcome str)) :
  forall text,
    (exists texts, pages = map Returns texts /\
                   extract_pages pages text = Returns (text ++ concat texts)) \/
    (exists texts e rest, pages = map Returns texts ++ Raises e :: rest /\
                          extract_pages pages text = Raises e).
Proof.
  induction pages as [|[page_text | e] pages IH]; intros text; simpl.
  - left. exists []. simpl. now rewrite app_nil_r.
  - destruct (IH (text ++ page_text)) as [[texts [-> E]] | [texts [e [rest [-> E]]]]].
    + left. exists (page_text :: texts). simpl. rewrite E, <- app_assoc. auto.
    + right. exists (page_text :: texts), e, rest. auto.
  - right. exists [], e, pages. auto.
Qed.

(** X12: [extract_text_from_pdf] gives all of the text or none of it: when
    the file opens and every page gives its text, the result is the texts
    of the pages one after the other and nothing is reported; when opening
    the file or a page raises, the result is [None], whatever the pages
    before gave, and exactly one message is reported, with the text of the
    first exception. *)
Theorem extract_text_all_or_nothing (pdf_file : PdfFile) :
  match extract_text_from_pdf pdf_file with
  | (Some text, errors) =>
      errors = [] /\
      exists texts, pdf_file = Returns (map Returns texts) /\ text = concat texts
  | (None, errors) =>
      exists e,
        errors = [py "Error extracting PDF: " ++ e] /\
        (pdf_file = Raises e \/
         exists texts rest,
           pdf_file = Returns (map Returns texts ++ Raises e :: rest))
  end.
Proof.
  unfold extract_text_from_pdf. destruct pdf_file as [pages | e].
  - destruct (extract_pages_cases pages [])
      as [[texts [-> E]] | [texts [e [rest [-> E]]]]]; rewrite E.
    + split; [reflexivity|]. exists texts. auto.
    + exists e. split; [reflexivity|]. right. eauto.
  - exists e. auto.
Qed.

(** ** Segmenting a clause again *)

Lemma split_from_unbroken (s : str) :
  forall cur, (forall a b, s = a ++ b -> ~ starts_break b) ->
    Re.split_from CLAUSE_BREAK s 0 cur = [rev cur ++ s].
Proof.
  induction s as [|c s IH]; intros cur Hfree.
  - simpl. now rewrite app_nil_r.
  - assert (Hnone : forall n, Re.match_alt CLAUSE_BREAK (c :: s) <> Some (S n)).
    { intros n E. destruct (clause_break_match_shape _ _ E) as [_ B].
      apply (Hfree [] (c :: s) eq_refl).
      exists (firstn (S n) (c :: s)), (skipn (S n) (c :: s)).
      split; [now rewrite firstn_skipn | exact B]. }
    assert (Hrest : forall a b, s = a ++ b -> ~ starts_break b).
    { intros a b E. apply (Hfree (c :: a) b). simpl. now rewrite E. }
    assert (Estep : Re.split_from CLAUSE_BREAK (c :: s) 0 cur =
                    Re.split_from CLAUSE_BREAK s 0 (c :: cur)).
    { cbn [Re.split_from].
      destruct (Re.match_alt CLAUSE_BREAK (c :: s)) as [[|n]|] eqn:E;
        [reflexivity | exfalso; now apply (Hnone n) | reflexivity]. }
    rewrite Estep, (IH (c :: cur) Hrest). simpl. now rewrite <- app_assoc.
Qed.

Lemma split_unbroken (s : str) :
  ~ contains_break s -> Re.split CLAUSE_BREAK s = [s].
Proof.
  intros H. unfold Re.split. rewrite split_from_unbroken; [reflexivity|].
  intros a b E [sep [rest [Eb B]]]. apply H. exists a, sep, rest.
  split; [now rewrite E, Eb | exact B].
Qed.

Lemma segment_text_no_break (contract_text : str) (c : Clause) :
  In c (segment_into_clauses contract_text) -> ~ contains_break (text c).
Proof.
  intros Hc. apply in_segment_into_clauses in Hc.
  destruct Hc as [i [para [Hn [_ ->]]]]. simpl.
  intros [before [sep [after [E B]]]].
  apply (split_pieces_no_break contract_text para).
  - eapply nth_error_In; exact Hn.
  - destruct (strip_decompose para) as [ws1 [ws2 [Ep _]]].
    exists (ws1 ++ before), sep, (after ++ ws2). split; [|exact B].
    rewrite Ep at 1. rewrite E. now rewrite <- !app_assoc.
Qed.

(** X13: segmenting is idempotent on its results: the text of a clause,
    given to [segment_into_clauses] again, is one paragraph and comes back
    as one clause, with the same text and the id 1. *)
Theorem resegment_clause (contract_text : str) (c : Clause) :
  In c (segment_into_clauses contract_text) ->
  Re.split CLAUSE_BREAK (text c) = [text c] /\
  segment_into_clauses (text c) =
    [ {| id := 1; text := text c; detected_risks := [] |} ].
Proof.
  intros Hc.
  pose proof (split_unbroken _ (segment_text_no_break _ _ Hc)) as E.
  split; [exact E|]. rewrite segment_into_clauses_eq, E.
  apply in_segment_into_clauses in Hc. destruct Hc as [i [para [_ [Hl ->]]]].
  simpl. rewrite strip_idempotent.
  apply Nat.ltb_lt in Hl. now rewrite Hl.
Qed.

Lemma resegment_clause_witness :
  let c := {| id := 2; text := liability_paragraph; detected_risks := [] |} in
  In c (segment_into_clauses heading_then_paragraph) /\
  segment_into_clauses (text c) =
    [ {| id := 1; text := text c; detected_risks := [] |} ].
Proof.
  intros c.
  assert (H : In c (segment_into_clauses heading_then_paragraph))
    by (vm_compute; left; reflexivity).
  split; [exact H|].
  exact (proj2 (resegment_clause heading_then_paragraph c H)).
Defined.

(** ** Calls in sequence *)

Module StoreFacts.
Import Store.

Lemma nth_old (s fresh : store) (a : addr) :
  a < length s -> nth a (s ++ fresh) [] = nth a s [].
Proof. intros H. now apply app_nth1. Qed.

Lemma firstn_old (s fresh : store) : firstn (length s) (s ++ fresh) = s.
Proof.
  induction s as [|x s IH]; simpl; [now destruct fresh|]. now rewrite IH.
Qed.

Lemma finding_value_old (s fresh : store) (l : list FindingRef) :
  Forall (fun f => matched_keywords_at f < length s) l ->
  map (finding_value (s ++ fresh)) l = map (finding_value s) l.
Proof.
  induction 1 as [|f l Hf _ IH]; simpl; [reflexivity|].
  rewrite IH. unfold finding_value at 1 3. now rewrite (nth_old s fresh _ Hf).
Qed.

Lemma patterns_value_old (s fresh : store) (patterns : dict RiskDataRef) :
  patterns_in s patterns ->
  patterns_value (s ++ fresh) patterns = patterns_value s patterns.
Proof.
  unfold patterns_value. induction 1 as [|item l Hi _ IH]; simpl; [reflexivity|].
  now rewrite IH, (nth_old s fresh _ Hi).
Qed.

Lemma patterns_value_same_lists (s s' : store) (patterns : dict RiskDataRef) :
  patterns_in s patterns -> firstn (length s) s' = s ->
  patterns_value s' patterns = patterns_value s patterns.
Proof.
  intros Hin E. rewrite <- (firstn_skipn (length s) s'), E.
  now apply patterns_value_old.
Qed.

Lemma patterns_in_longer (s fresh : store) (patterns : dict RiskDataRef) :
  patterns_in s patterns -> patterns_in (s ++ fresh) patterns.
Proof.
  unfold patterns_in. intros H. eapply Forall_impl; [|exact H].
  intros item Hi. simpl in *. rewrite length_app. lia.
Qed.

(** What one turn of the loop returns and what it leaves in the store. *)
Lemma analyze_step_run (clause_lower : str) (detected : list FindingRef)
  (risk_type : str) (risk_data : RiskDataRef) (s : store) :
  let matches :=
    filter (fun kw => contains clause_lower (lower kw))
           (nth (keywords_at risk_data) s []) in
  analyze_step clause_lower detected (risk_type, risk_data) s =
  (match matches with
   | [] => detected
   | _ :: _ =>
       detected ++
         [ {| ref_type := type_name risk_type;
              ref_level := ref_risk_level risk_data;
              matched_keywords_at := length s;
              ref_finding_rationale := ref_rationale risk_data;
              ref_finding_suggestion := ref_suggestion risk_data |} ]
   end, s ++ [matches]).
Proof. reflexivity. Qed.

(** The loop only adds lists to the store; the findings it adds hold
    lists that did not exist before; read in the store that the loop
    leaves, the findings are those of the loop over values. *)
Lemma analyze_loop_run (clause_lower : str) (items : dict RiskDataRef) :
  forall (detected : list FindingRef) (s : store),
    patterns_in s items ->
    Forall (fun f => matched_keywords_at f < length s) detected ->
    exists added fresh,
      analyze_loop clause_lower items detected s = (detected ++ added, s ++ fresh) /\
      Forall (fun f => length s <= matched_keywords_at f < length (s ++ fresh)) added /\
      map (finding_value (s ++ fresh)) added =
        flat_map (analyze_emit clause_lower) (patterns_value s items).
Proof.
  induction items as [|[risk_type risk_data] items IH]; intros detected s Hin Hdet.
  - exists [], []. simpl. unfold ret. rewrite !app_nil_r. auto.
  - inversion Hin as [|? ? Hi Hrest]; subst. simpl in Hi.
    cbn [analyze_loop]. unfold bind at 1. rewrite analyze_step_run.
    set (matches := filter (fun kw => contains clause_lower (lower kw))
                           (nth (keywords_at risk_data) s [])).
    set (f := {| ref_type := type_name risk_type;
                 ref_level := ref_risk_level risk_data;
                 matched_keywords_at := length s;
                 ref_finding_rationale := ref_rationale risk_data;
                 ref_finding_suggestion := ref_suggestion risk_data |}).
    set (detected' := match matches with [] => detected | _ :: _ => detected ++ [f] end).
    assert (Hdet' : Forall (fun f => matched_keywords_at f < length (s ++ [matches]))
                      detected').
    { assert (Hold : Forall (fun f => matched_keywords_at f < length (s ++ [matches]))
                       detected).
      { eapply Forall_impl; [|exact Hdet]. intros x Hx. simpl in *.
        rewrite length_app. lia. }
      subst detected'. destruct matches; [exact Hold|].
      apply Forall_app. split; [exact Hold|]. constructor; [|constructor].
      simpl. rewrite length_app. simpl. lia. }
    destruct (IH detected' (s ++ [matches])
                (patterns_in_longer s [matches] items Hrest) Hdet')
      as [added [fresh [E [Hadded V]]]].
    rewrite E. rewrite <- app_assoc in *.
    rewrite (patterns_value_old s [matches] items Hrest) in V.
    cbn [patterns_value map flat_map fst snd].
    fold (patterns_value s items).
    unfold analyze_emit at 1, find_matches. cbn [keywords]. fold matches.
    assert (Hadded' : Forall (fun f => length s <= matched_keywords_at f
                                       < length (s ++ [matches] ++ fresh)) added).
    { eapply Forall_impl; [|exact Hadded]. intros x Hx. simpl in *.
      rewrite length_app in Hx. simpl in Hx. lia. }
    subst detected'. destruct matches as [|kw more] eqn:Em.
    + exists added, ([] :: fresh).
      change ([[]] ++ fresh) with ([] :: fresh) in *. auto.
    + exists (f :: added), ((kw :: more) :: fresh).
      change ([kw :: more] ++ fresh) with ((kw :: more) :: fresh) in *.
      rewrite <- app_assoc. split; [reflexivity|]. split.
      * constructor; [|exact Hadded']. simpl. rewrite length_app. simpl. lia.
      * cbn [map app]. rewrite V. f_equal. unfold finding_value. subst f.
        cbn [matched_keywords_at ref_type ref_level ref_finding_rationale
             ref_finding_suggestion].
        rewrite app_nth2 by lia. rewrite Nat.sub_diag. reflexivity.
Qed.

Lemma analyze_clause_risk_run (patterns : dict RiskDataRef) (clause_text : str)
  (s : store) :
  patterns_in s patterns ->
  exists findings fresh,
    Store.analyze_clause_risk patterns clause_text s = (findings, s ++ fresh) /\
    Forall (fun f => length s <= matched_keywords_at f < length (s ++ fresh)) findings /\
    map (finding_value (s ++ fresh)) findings =
      analyze_with (patterns_value s patterns) clause_text.
Proof.
  intros Hin. unfold Store.analyze_clause_risk.
  destruct (analyze_loop_run (lower clause_text) patterns [] s Hin (Forall_nil _))
    as [added [fresh [E [Hadded V]]]].
  exists added, fresh. simpl in E. rewrite analyze_with_eq. auto.
Qed.

Lemma store_patterns_run (patterns : dict RiskData) :
  forall s, exists fresh,
    snd (store_patterns patterns s) = s ++ fresh /\
    patterns_in (s ++ fresh) (fst (store_patterns patterns s)) /\
    patterns_value (s ++ fresh) (fst (store_patterns patterns s)) = patterns.
Proof.
  induction patterns as [|[risk_type risk_data] patterns IH]; intros s.
  - exists []. simpl. rewrite app_nil_r. split; [reflexivity|]. split; constructor.
  - cbn [store_patterns]. unfold new_list.
    destruct (IH (s ++ [keywords risk_data])) as [fresh [E [Hin V]]].
    destruct (store_patterns patterns (s ++ [keywords risk_data])) as [refs s2].
    simpl in *. subst s2. exists (keywords risk_data :: fresh).
    rewrite <- app_assoc in *. simpl in *. split; [reflexivity|]. split.
    + constructor; [|exact Hin]. simpl. rewrite length_app. simpl. lia.
    + unfold patterns_value in *. simpl. rewrite V. f_equal.
      rewrite app_nth2 by lia. rewrite Nat.sub_diag. simpl.
      destruct risk_data; reflexivity.
Qed.

End StoreFacts.

(** C4: two calls of [analyze_clause_risk] on the same clause text return
    the same findings, in the same order, with the same matched keywords in
    the same order, whatever was done between the calls to the lists that
    the first call returned, as long as the keyword lists of the taxonomy
    are as they were.  A call changes no list that existed before it, the
    lists of matched keywords that it returns are new ones, and from the
    store of the module both calls return
    [analyze_clause_risk clause_text]. *)
Theorem analyze_clause_risk_repeatable (patterns : dict Store.RiskDataRef)
  (clause_text : str) (s between : Store.store) :
  Store.patterns_in s patterns ->
  firstn (length s) between = s ->
  let first := Store.analyze_clause_risk patterns clause_text s in
  let second := Store.analyze_clause_risk patterns clause_text between in
  map (Store.finding_value (snd second)) (fst second) =
    map (Store.finding_value (snd first)) (fst first) /\
  firstn (length s) (snd first) = s /\
  firstn (length between) (snd second) = between /\
  Forall (fun f => length s <= Store.matched_keywords_at f) (fst first) /\
  map (Store.finding_value (snd first)) (fst first) =
    analyze_with (Store.patterns_value s patterns) clause_text /\
  (Store.patterns_value s patterns = RISK_PATTERNS ->
   map (Store.finding_value (snd first)) (fst first) =
     analyze_clause_risk clause_text).
Proof.
  intros Hin Hsame first second.
  assert (Hin' : Store.patterns_in between patterns).
  { rewrite <- (firstn_skipn (length s) between), Hsame.
    now apply StoreFacts.patterns_in_longer. }
  destruct (StoreFacts.analyze_clause_risk_run patterns clause_text s Hin)
    as [f1 [fresh1 [E1 [F1 V1]]]].
  destruct (StoreFacts.analyze_clause_risk_run patterns clause_text between Hin')
    as [f2 [fresh2 [E2 [F2 V2]]]].
  subst first second. rewrite E1, E2. simpl fst. simpl snd.
  rewrite V1, V2, (StoreFacts.patterns_value_same_lists s between patterns Hin Hsame).
  split; [reflexivity|]. split; [apply StoreFacts.firstn_old|].
  split; [apply StoreFacts.firstn_old|]. split.
  - eapply Forall_impl; [|exact F1]. simpl. intros f Hf. lia.
  - split; [reflexivity|]. intros Ep. unfold analyze_clause_risk. now rewrite Ep.
Qed.

Lemma module_store_holds_patterns :
  Store.patterns_in Store.module_store Store.module_patterns /\
  Store.patterns_value Store.module_store Store.module_patterns = RISK_PATTERNS.
Proof.
  destruct (StoreFacts.store_patterns_run RISK_PATTERNS []) as [fresh [E [Hin V]]].
  unfold Store.module_store, Store.module_patterns. rewrite E. auto.
Qed.

Lemma analyze_clause_risk_repeatable_witness :
  let s := Store.module_store in
  let first := Store.analyze_clause_risk Store.module_patterns termination_paragraph s in
  let between := Store.append_at 9 (py "edited") (snd first) in
  let second :=
    Store.analyze_clause_risk Store.module_patterns termination_paragraph between in
  Store.patterns_in s Store.module_patterns /\
  firstn (length s) between = s /\
  between <> snd first /\
  map (Store.finding_value (snd second)) (fst second) =
    map (Store.finding_value (snd first)) (fst first) /\
  map (Store.finding_value (snd first)) (fst first) =
    analyze_clause_risk termination_paragraph.
Proof.
  intros s first between second.
  destruct module_store_holds_patterns as [Hin Hv].
  assert (Hsame : firstn (length s) between = s) by (vm_compute; reflexivity).
  assert (Hedit : between <> snd first) by (vm_compute; discriminate).
  split; [exact Hin|]. split; [exact Hsame|]. split; [exact Hedit|].
  destruct (analyze_clause_risk_repeatable Store.module_patterns
              termination_paragraph s between Hin Hsame)
    as [Heq [_ [_ [_ [_ Hmod]]]]].
  split; [exact Heq | exact (Hmod Hv)].
Defined.

(** ** Two paragraphs and a blank line *)


Lemma keyword_found (kw clause_text : str) :
  contains (lower clause_text) (lower kw) = true -> keyword_occurs kw clause_text.
Proof. apply keyword_test_spec. Qed.

(** The paragraphs of the scenario are two paragraphs without a newline,
    the first of 60 and the second of 31 characters, with the keywords of
    the scenario in them. *)
Lemma scenario_paragraphs :
  scenario_text = liability_paragraph ++ [newline; newline] ++ termination_paragraph /\
  plain_paragraph liability_paragraph /\ plain_paragraph termination_paragraph /\
  length (strip liability_paragraph) = 60 /\
  length (strip termination_paragraph) = 31 /\
  keyword_occurs (py "unlimited liability") (strip liability_paragraph) /\
  keyword_occurs (py "no warranty") (strip liability_paragraph) /\
  keyword_occurs (py "no notice") (strip termination_paragraph).
Proof.
  split; [reflexivity|].
  split; [split; [apply not_in_newline|]; vm_compute; reflexivity|].
  split; [split; [apply not_in_newline|]; vm_compute; reflexivity|].
  split; [vm_compute; reflexivity|]. split; [vm_compute; reflexivity|].
  repeat split; apply keyword_found; vm_compute; reflexivity.
Qed.



(** ** Letter case that [lower] does not undo *)

(** C5, as the specification states it, fails: the clause
    [sharp_s_clause] has no finding, and the same clause in upper case, as
    [upper] gives it, has the warranty finding for [express or implied]:
    the sharp s becomes SS, and [lower] makes ss of it, not a sharp s. *)
Lemma upper_case_changes_findings :
  upper sharp_s_clause = Some SHARP_S_CLAUSE_upper /\
  analyze_clause_risk sharp_s_clause = [] /\
  summary (analyze_clause_risk SHARP_S_CLAUSE_upper) =
    [ (py "Warranty", [py "express or implied"]) ] /\
  map type (analyze_clause_risk sharp_s_clause) <>
  map type (analyze_clause_risk SHARP_S_CLAUSE_upper).
Proof.
  split; [vm_compute; reflexivity|]. split; [vm_compute; reflexivity|].
  split; [vm_compute; reflexivity|]. vm_compute. discriminate.
Qed.
